(** * airc: a minimal IRC client (message parser, connection manager,
      handler registry), embedded shallowly from [airc.py].

    Python values are modelled as follows.
    - A [str] is a list of Unicode code points ([N]); a [bytes] object is a
      list of octets (also [N], each below 256).
    - [str.isspace] is the interpreter's table of white-space code points.
    - [str.upper] maps every code point separately; the ASCII part is written
      out, the rest of the Unicode case table is a parameter of the
      development ([unicode_upper]).
    - Exceptions are values of [exn]; fallible code returns a [result].
    - Methods of [Client] run in a small monad threading the client record and
      recording the calls made to the outside world (transport writes, log
      records, spawned tasks) in a trace.
    - What the outside world answers is an argument of the method that asks:
      the result of [open_connection] and of every [readline], and the
      outcome of every awaited [drain] and [wait_closed], which return or
      raise the error of the connection. [write] and [close] only queue work
      on the transport and return. *)

From Stdlib Require Import NArith List String Ascii Bool Lia.
From stdpp Require Import gmap list.
Import ListNotations.
Local Open Scope N_scope.

(** ** Python strings *)

Abbreviation pystr := (list N) (only parsing).
Abbreviation pybytes := (list N) (only parsing).

(** The code points of a literal. *)
Definition py (s : string) : pystr :=
  List.map N_of_ascii (list_ascii_of_string s).
Arguments py : simpl never.

(** [str.isspace] on one code point. *)
Definition isspace (c : N) : bool :=
  ((9 <=? c) && (c <=? 13)) || ((28 <=? c) && (c <=? 32))
  || (c =? 133) || (c =? 160) || (c =? 5760)
  || ((8192 <=? c) && (c <=? 8202))
  || (c =? 8232) || (c =? 8233) || (c =? 8239) || (c =? 8287)
  || (c =? 12288).

Fixpoint lstrip (s : pystr) : pystr :=
  match s with
  | [] => []
  | c :: s' => if isspace c then lstrip s' else s
  end.

Definition rstrip (s : pystr) : pystr := rev (lstrip (rev s)).

(** [s.strip()] *)
Definition strip (s : pystr) : pystr := rstrip (lstrip s).

(** [s.startswith(p)] *)
Fixpoint startswith (p s : pystr) : bool :=
  match p, s with
  | [], _ => true
  | _ :: _, [] => false
  | c :: p', d :: s' => (c =? d) && startswith p' s'
  end.

(** [sep in s] *)
Fixpoint contains (sep s : pystr) : bool :=
  startswith sep s ||
  match s with
  | [] => false
  | _ :: s' => contains sep s'
  end.

(** The two halves of [s] around the leftmost occurrence of [sep], when there
    is one: [s.split(sep, 1)] has two elements exactly in that case. *)
Fixpoint split_once (sep s : pystr) : option (pystr * pystr) :=
  if startswith sep s then Some ([], skipn (length sep) s)
  else match s with
       | [] => None
       | c :: s' =>
           match split_once sep s' with
           | Some (a, b) => Some (c :: a, b)
           | None => None
           end
       end.

(** [s.partition(sep)] *)
Definition partition (sep s : pystr) : pystr * pystr * pystr :=
  match split_once sep s with
  | Some (a, b) => (a, sep, b)
  | None => (s, [], [])
  end.

Definition cons_word (w : pystr) (ws : list pystr) : list pystr :=
  match w with
  | [] => ws
  | _ :: _ => w :: ws
  end.

(** The word that starts at the head of [s] (empty when [s] starts with white
    space) and the words after it. *)
Fixpoint words (s : pystr) : pystr * list pystr :=
  match s with
  | [] => ([], [])
  | c :: s' =>
      let '(w, ws) := words s' in
      if isspace c then ([], cons_word w ws) else (c :: w, ws)
  end.

(** [s.split()]: the maximal runs of non-white-space characters. *)
Definition split_ws (s : pystr) : list pystr :=
  let '(w, ws) := words s in cons_word w ws.

Definition ascii_upper (c : N) : N :=
  if (97 <=? c) && (c <=? 122) then c - 32 else c.

(** [x or None] for a string [x]. *)
Definition or_None (s : pystr) : option pystr :=
  match s with
  | [] => None
  | _ :: _ => Some s
  end.

(** ** Exceptions and results *)

(** The exceptions that occur. [OSError] stands for the class and its
    subclasses (ConnectionRefusedError, ConnectionResetError and the like),
    [OtherError] for any other subclass of Exception. *)
Inductive exn : Type :=
  | ValueError
  | IndexError
  | TypeError
  | UnicodeEncodeError
  | OSError
  | OtherError.

Inductive result (A : Type) : Type :=
  | Ok (a : A)
  | Raise (e : exn).
Arguments Ok {A} a.
Arguments Raise {A} e.

(** ** Messages *)

Record Prefix : Type := mkPrefix {
  nick : pystr;
  user : option pystr;
  host : option pystr
}.

Record Message : Type := mkMessage {
  prefix : option Prefix;
  command : pystr;
  params : list pystr
}.

(** ** Sample tables

    A case table without case beyond ASCII and a decoder that reads every
    byte from 128 on as U+FFFD; the examples below are run with them. *)

Definition caseless (c : N) : pystr := [c].

Definition decode_ascii (raw : pybytes) : pystr :=
  List.map (fun b => if b <? 128 then b else 65533) raw.

Section Airc.

Set Default Proof Using "Type".

(** The upper-case mapping of the code points from 128 on (the interpreter's
    Unicode database). *)
Variable unicode_upper : N -> pystr.

Definition upper_cp (c : N) : pystr :=
  if c <? 128 then [ascii_upper c] else unicode_upper c.

(** [s.upper()] *)
Definition upper (s : pystr) : pystr := flat_map upper_cp s.

(** [Message.parse], first block: the optional prefix. Returns the prefix and
    the rest of the line. The tuple assignment from [line.split(' ', 1)]
    raises ValueError when the line has no space. *)
Definition parse_prefix (line : pystr) : result (option Prefix * pystr) :=
  if startswith (py ":") line then
    match split_once (py " ") line with
    | Some (prefix_str, line') =>
        let '(nick, _, user_host) := partition (py "!") (skipn 1 prefix_str) in
        let '(user, _, host) := partition (py "@") user_host in
        Ok (Some (mkPrefix nick (or_None user) (or_None host)), line')
    | None => Raise ValueError
    end
  else Ok (None, line).

(** [Message.parse], second block: the parameter list, command included. *)
Definition parse_params (line : pystr) : result (list pystr) :=
  if contains (py " :") line then
    match split_once (py " :") line with
    | Some (parts, trailing) => Ok (split_ws parts ++ [trailing])
    | None => Raise ValueError
    end
  else Ok (split_ws line).

(** [Message.parse]; [params.pop(0)] raises IndexError on an empty list. *)
Definition parse (line : pystr) : result Message :=
  let line := strip line in
  match parse_prefix line with
  | Raise e => Raise e
  | Ok (prefix, line) =>
      match parse_params line with
      | Raise e => Raise e
      | Ok [] => Raise IndexError
      | Ok (command :: params) => Ok (mkMessage prefix (upper command) params)
      end
  end.


(** ** UTF-8 *)

(** The encoding of one code point; surrogates (and numbers that are not code
    points) have none, [str.encode] raises UnicodeEncodeError on them. *)
Definition encode_cp (c : N) : option pybytes :=
  if c <? 128 then Some [c]
  else if c <? 2048 then
    Some [N.lor 192 (N.shiftr c 6); N.lor 128 (N.land c 63)]
  else if (55296 <=? c) && (c <=? 57343) then None
  else if c <? 65536 then
    Some [N.lor 224 (N.shiftr c 12);
          N.lor 128 (N.land (N.shiftr c 6) 63);
          N.lor 128 (N.land c 63)]
  else if c <? 1114112 then
    Some [N.lor 240 (N.shiftr c 18);
          N.lor 128 (N.land (N.shiftr c 12) 63);
          N.lor 128 (N.land (N.shiftr c 6) 63);
          N.lor 128 (N.land c 63)]
  else None.

(** [s.encode('utf-8')] *)
Fixpoint encode_utf8 (s : pystr) : option pybytes :=
  match s with
  | [] => Some []
  | c :: s' =>
      match encode_cp c, encode_utf8 s' with
      | Some b, Some bs => Some (b ++ bs)
      | _, _ => None
      end
  end.

(** [bytes.decode('utf-8', errors='replace')] of the interpreter; it never
    raises. *)
Variable decode_utf8 : pybytes -> pystr.

(** ** The client *)

(** A registered callback: the built-in [_handle_ping], or a callback of the
    application, identified by a number. [coroutine] tells whether it is an
    [async def]: calling one returns a coroutine that [asyncio.create_task]
    accepts; calling a plain function runs it and hands its return value to
    [create_task], which raises TypeError. *)
Inductive Handler : Type :=
  | HandlePing
  | Callback (id : nat) (coroutine : bool).

#[export] Instance Handler_eq_dec : EqDecision Handler.
Proof. solve_decision. Defined.

(** The records passed to [logging], one constructor per call site. *)
Inductive LogRecord : Type :=
  | LogConnecting (h : pystr) (p : N)
  | LogConnectionSuccessful
  | LogConnectionFailed (e : exn)
  | LogUnexpected (e : exn)
  | LogDisconnected (delay : N)
  | LogEmptyData
  | LogReceived (line : pystr)
  | LogLineFailed (line : pystr) (e : exn)
  | LogPong (data : pystr)
  | LogSent (data : pystr)
  | LogNotConnected.

Inductive Level : Type := DEBUG | INFO | WARNING | ERROR.

Definition level (r : LogRecord) : Level :=
  match r with
  | LogConnecting _ _ | LogConnectionSuccessful | LogDisconnected _
  | LogPong _ => INFO
  | LogConnectionFailed _ | LogUnexpected _ | LogLineFailed _ _
  | LogNotConnected => ERROR
  | LogEmptyData => WARNING
  | LogReceived _ | LogSent _ => DEBUG
  end.

(** Calls to the outside world. Stream readers and writers are identified by
    numbers. A call is recorded when it is made, whether it then returns or
    raises. *)
Inductive Effect : Type :=
  | EWrite (w : nat) (data : pybytes)
  | EDrain (w : nat)
  | EClose (w : nat)
  | EWaitClosed (w : nat)
  | ELog (r : LogRecord)
  | ECall (id : nat) (m : Message)
  | ESpawn (h : Handler) (m : Message)
  | ESleep (secs : N).

(** The attributes of a [Client]; [host] is spelled [server] here, the name
    being taken by [Prefix]. *)
Record Client : Type := mkClient {
  server : pystr;
  port : N;
  use_ssl : bool;
  nickname : pystr;
  username : pystr;
  realname : pystr;
  password : option pystr;
  _reader : option nat;
  _writer : option nat;
  _is_connected : bool;
  _handlers : gmap (list N) (list Handler)
}.

Definition set_handlers (hs : gmap (list N) (list Handler)) (self : Client)
  : Client :=
  mkClient (server self) (port self) (use_ssl self) (nickname self)
    (username self) (realname self) (password self) (_reader self)
    (_writer self) (_is_connected self) hs.

Definition set_streams (r w : option nat) (self : Client) : Client :=
  mkClient (server self) (port self) (use_ssl self) (nickname self)
    (username self) (realname self) (password self) r w
    (_is_connected self) (_handlers self).

Definition set_is_connected (b : bool) (self : Client) : Client :=
  mkClient (server self) (port self) (use_ssl self) (nickname self)
    (username self) (realname self) (password self) (_reader self)
    (_writer self) b (_handlers self).

(** [self.on(command)(func)]: append to the list of a [defaultdict(list)]. *)
Definition on (command : pystr) (func : Handler) (self : Client) : Client :=
  let key := upper command in
  set_handlers
    (<[key := default [] (_handlers self !! key) ++ [func]]> (_handlers self))
    self.

(** [x or y] for an optional string [x]. *)
Definition or_else (x : option pystr) (y : pystr) : pystr :=
  match x with
  | Some (c :: s) => c :: s
  | _ => y
  end.

(** [Client.__init__] *)
Definition init (host : pystr) (port : N) (nickname : pystr)
    (username realname password : option pystr) (use_ssl : bool) : Client :=
  on (py "PING") HandlePing
    (mkClient host port use_ssl nickname (or_else username nickname)
       (or_else realname nickname) password None None false ∅).

(** *** The monad of the methods *)

Definition M (A : Type) : Type := Client -> result A * Client * list Effect.

#[export] Instance M_ret : MRet M := fun A a self => (Ok a, self, []).

#[export] Instance M_bind : MBind M := fun A B k m self =>
  match m self with
  | (Ok a, self', t) =>
      let '(r, self'', t') := k a self' in (r, self'', t ++ t')
  | (Raise e, self', t) => (Raise e, self', t)
  end.

Definition raise {A : Type} (e : exn) : M A := fun self => (Raise e, self, []).

Definition emit (e : Effect) : M unit := fun self => (Ok tt, self, [e]).

Definition get_self : M Client := fun self => (Ok self, self, []).

Definition modify (f : Client -> Client) : M unit :=
  fun self => (Ok tt, f self, []).

(** [try: m  except Exception as e: h e] *)
Definition try_except {A : Type} (m : M A) (h : exn -> M A) : M A :=
  fun self =>
    match m self with
    | (Ok a, self', t) => (Ok a, self', t)
    | (Raise e, self', t) =>
        let '(r, self'', t') := h e self' in (r, self'', t ++ t')
    end.

Definition lift {A : Type} (r : result A) : M A := fun self => (r, self, []).

(** The outcome of an awaited stream call, [StreamWriter.drain] or
    [StreamWriter.wait_closed]: [None] when it returns, [Some e] when it
    raises [e] (the error that ended the connection, ConnectionResetError on
    a connection that is lost or closed). *)
Definition answered (answer : option exn) : result unit :=
  match answer with
  | None => Ok tt
  | Some e => Raise e
  end.

(** [await call]: the call is made, and returns or raises as answered. *)
Definition await (call : Effect) (answer : option exn) : M unit :=
  emit call ;; lift (answered answer).

Fixpoint for_each {A : Type} (l : list A) (body : A -> M unit) : M unit :=
  match l with
  | [] => mret tt
  | x :: l' => body x ;; for_each l' body
  end.

Definition the_result {A : Type} (x : result A * Client * list Effect)
  : result A := x.1.1.
Definition the_client {A : Type} (x : result A * Client * list Effect)
  : Client := x.1.2.
Definition the_trace {A : Type} (x : result A * Client * list Effect)
  : list Effect := x.2.

(** The arguments of the calls to [StreamWriter.write] in a trace. *)
Definition writes (t : list Effect) : list pybytes :=
  flat_map (fun e => match e with EWrite _ d => [d] | _ => [] end) t.

(** The records logged at level ERROR in a trace. *)
Definition errors (t : list Effect) : list LogRecord :=
  flat_map (fun e => match e with
                     | ELog r => match level r with ERROR => [r] | _ => [] end
                     | _ => []
                     end) t.

(** *** Sending *)

Definition CRLF : pybytes := [13; 10].

(** [Client.send_raw]; [drained] is the outcome of [await
    self._writer.drain()], if the call is made. *)
Definition send_raw (data : pystr) (drained : option exn) : M unit :=
  self ← get_self;
  match _writer self, _is_connected self with
  | Some w, true =>
      match encode_utf8 data with
      | None => raise UnicodeEncodeError
      | Some encoded_data =>
          let encoded_data :=
            if (500 <? length encoded_data)%nat
            then firstn 500 encoded_data else encoded_data in
          let encoded_data := encoded_data ++ CRLF in
          emit (EWrite w encoded_data) ;;
          await (EDrain w) drained ;;
          emit (ELog (LogSent data))
      end
  | _, _ => emit (ELog LogNotConnected)
  end.

(** [Client.join], [Client.part] *)
Definition join (channel : pystr) (drained : option exn) : M unit :=
  send_raw (py "JOIN " ++ channel) drained.

Definition part (channel reason : pystr) (drained : option exn) : M unit :=
  send_raw (py "PART " ++ channel ++ py " :" ++ reason) drained.

(** [Client.quit]; [closed] is the outcome of [await
    self._writer.wait_closed()], if the call is made. *)
Definition quit (reason : pystr) (drained closed : option exn) : M unit :=
  send_raw (py "QUIT :" ++ reason) drained ;;
  self ← get_self;
  match _writer self with
  | Some w => emit (EClose w) ;; await (EWaitClosed w) closed
  | None => mret tt
  end.

(** [Client._register]; the three calls of [send_raw] are numbered as they
    stand in the method, and [drained i] is the outcome of the drain of
    call [i]. *)
Definition _register (drained : nat -> option exn) : M unit :=
  self ← get_self;
  match password self with
  | Some (c :: p) => send_raw (py "PASS " ++ c :: p) (drained 0%nat)
  | _ => mret tt
  end ;;
  send_raw (py "NICK " ++ nickname self) (drained 1%nat) ;;
  send_raw (py "USER " ++ username self ++ py " 0 * :" ++ realname self)
    (drained 2%nat).

(** [Client._handle_ping]; [message.params[0]] raises IndexError when there
    is no parameter. *)
Definition _handle_ping (message : Message) (drained : option exn) : M unit :=
  match params message with
  | [] => raise IndexError
  | pong_data :: _ =>
      send_raw (py "PONG :" ++ pong_data) drained ;;
      emit (ELog (LogPong pong_data))
  end.

(** *** Dispatch *)

(** [asyncio.create_task(handler(message))] *)
Definition create_task (handler : Handler) (message : Message) : M unit :=
  match handler with
  | Callback id false => emit (ECall id message) ;; raise TypeError
  | _ => emit (ESpawn handler message)
  end.

(** [Client._dispatch] *)
Definition _dispatch (message : Message) : M unit :=
  self ← get_self;
  for_each (default [] (_handlers self !! command message))
    (fun handler => create_task handler message) ;;
  for_each (default [] (_handlers self !! py "*"))
    (fun handler => create_task handler message).

(** The handlers of the tasks created in a trace, in creation order. *)
Definition spawned (t : list Effect) : list Handler :=
  flat_map (fun e => match e with ESpawn h _ => [h] | _ => [] end) t.

(** *** The read loop *)

(** What [await self._reader.readline()] gives: bytes (empty at end of
    stream) or an exception. *)
Inductive read_result : Type :=
  | Line (raw_line : pybytes)
  | ReadError (e : exn).

(** How a run of the loop over the reads supplied so far ends: the loop was
    left and the method returned, or the loop is suspended in [readline]. *)
Inductive loop_status : Type := Returned | Suspended.

(** The body of the loop for one line that was read: decode, parse, dispatch,
    with the [try]/[except Exception] around the last two. *)
Definition handle_line (raw_line : pybytes) : M unit :=
  let line := strip (decode_utf8 raw_line) in
  emit (ELog (LogReceived line)) ;;
  try_except
    (message ← lift (parse line); _dispatch message)
    (fun e => emit (ELog (LogLineFailed line e))).

(** [Client._read_loop], run on the results of the successive [readline]
    calls. *)
Fixpoint _read_loop (reads : list read_result) : M loop_status :=
  self ← get_self;
  if _is_connected self && bool_decide (is_Some (_reader self)) then
    match reads with
    | [] => mret Suspended
    | ReadError e :: _ => raise e
    | Line [] :: _ => emit (ELog LogEmptyData) ;; mret Returned
    | Line (b :: raw) :: reads' =>
        handle_line (b :: raw) ;; _read_loop reads'
    end
  else mret Returned.


(** *** The connection cycle *)

(** How the outside world answers one pass of the loop of [connect]: the
    outcome of [asyncio.open_connection] (a reader and a writer, or an
    exception, that of building the SSL context included), the outcomes of
    the drains of the registration, the results of the reads that follow,
    and the outcome of [wait_closed] in the [finally] block. *)
Record attempt : Type := mkAttempt {
  opened : result (nat * nat);
  drains : nat -> option exn;
  reads : list read_result;
  closed : option exn
}.

(** The [try] block of [Client.connect]. *)
Definition session (a : attempt) : M loop_status :=
  self ← get_self;
  emit (ELog (LogConnecting (server self) (port self))) ;;
  rw ← lift (opened a);
  modify (set_streams (Some rw.1) (Some rw.2)) ;;
  modify (set_is_connected true) ;;
  emit (ELog LogConnectionSuccessful) ;;
  _register (drains a) ;;
  _read_loop (reads a).

(** The two [except] clauses of [Client.connect]. *)
Definition on_exception (e : exn) : M loop_status :=
  match e with
  | OSError => emit (ELog (LogConnectionFailed e))
  | _ => emit (ELog (LogUnexpected e))
  end ;;
  mret Returned.

(** The [finally] block of [Client.connect]. An exception raised by
    [wait_closed] leaves the block before the log record and the sleep. *)
Definition teardown (reconnect_delay : N) (closed : option exn) : M unit :=
  modify (set_is_connected false) ;;
  self ← get_self;
  match _writer self with
  | Some w => emit (EClose w) ;; await (EWaitClosed w) closed
  | None => mret tt
  end ;;
  emit (ELog (LogDisconnected reconnect_delay)) ;;
  emit (ESleep reconnect_delay).

(** One pass of the [while True] loop of [Client.connect]. While the read
    loop is suspended the [finally] block has not run. An exception of the
    [finally] block is handled by nothing: it leaves the pass. *)
Definition connect_once (reconnect_delay : N) (a : attempt) : M loop_status :=
  status ← try_except (session a) on_exception;
  match status with
  | Suspended => mret Suspended
  | Returned => teardown reconnect_delay (closed a) ;; mret Returned
  end.

(** [Client.connect] against the answers of the outside world so far. The
    loop has no [break] and no [return]: a run ends suspended, or with an
    exception that left a pass. *)
Fixpoint connect (reconnect_delay : N) (attempts : list attempt)
  : M loop_status :=
  match attempts with
  | [] => mret Suspended
  | a :: attempts' =>
      status ← connect_once reconnect_delay a;
      match status with
      | Suspended => mret Suspended
      | Returned => connect reconnect_delay attempts'
      end
  end.

(** The states a client goes through: construction, registrations, passes of
    the connection loop (a pass stops in the read loop while the connection is
    up and after the [finally] block otherwise) and calls of the public
    methods. *)
Inductive lifecycle : Client -> Prop :=
  | lifecycle_init host port nickname username realname password use_ssl :
      lifecycle (init host port nickname username realname password use_ssl)
  | lifecycle_on command func self :
      lifecycle self -> lifecycle (on command func self)
  | lifecycle_connect delay a self :
      lifecycle self -> lifecycle (the_client (connect_once delay a self))
  | lifecycle_send_raw data drained self :
      lifecycle self -> lifecycle (the_client (send_raw data drained self))
  | lifecycle_quit reason drained closed self :
      lifecycle self ->
      lifecycle (the_client (quit reason drained closed self)).

(** The handlers registered so far, oldest first, and those among them that
    were registered under a key whose upper-case form is [key]. *)
Definition register_all (regs : list (pystr * Handler)) (self : Client)
  : Client :=
  fold_left (fun c kh => on kh.1 kh.2 c) regs self.

Definition registered (regs : list (pystr * Handler)) (key : pystr)
  : list Handler :=
  List.map snd (List.filter (fun kh => bool_decide (upper kh.1 = key)) regs).

Definition is_coroutine (h : Handler) : bool :=
  match h with
  | HandlePing => true
  | Callback _ b => b
  end.


(** ** The rest of the public methods *)

(** [s.split(sep)] for a non-empty separator: the text is cut at every
    occurrence of [sep], from the left. What is left after a cut is shorter
    than the text, so [length s] cuts are enough. *)
Fixpoint split_at_most (n : nat) (sep s : pystr) : list pystr :=
  match n with
  | O => [s]
  | S n' =>
      match split_once sep s with
      | Some (a, b) => a :: split_at_most n' sep b
      | None => [s]
      end
  end.

Definition split (sep s : pystr) : list pystr :=
  split_at_most (length s) sep s.

(** [sep.join(l)] *)
Fixpoint str_join (sep : pystr) (l : list pystr) : pystr :=
  match l with
  | [] => []
  | [x] => x
  | x :: l' => x ++ sep ++ str_join sep l'
  end.

(** [Client.send_privmsg]; [drained i] is the outcome of the drain for
    piece [i] of the text. *)
Definition send_privmsg (target text : pystr) (drained : nat -> option exn)
  : M unit :=
  for_each (imap (fun i line => (line, drained i)) (split [10] text))
    (fun call =>
       send_raw (py "PRIVMSG " ++ target ++ py " :" ++ call.1) call.2).

(** The bytes [send_raw] hands to [write] for a text that has an encoding. *)
Definition wire (encoded : pybytes) : pybytes :=
  (if (500 <? length encoded)%nat then firstn 500 encoded else encoded)
  ++ CRLF.

(** The code points that have a UTF-8 encoding. *)
Definition encodable (c : N) : bool :=
  (c <? 55296) || ((57343 <? c) && (c <? 1114112)).

(** [d] is what [send_raw] hands to [write] for the text [data]. *)
Definition wire_of (data : pystr) (d : pybytes) : Prop :=
  exists encoded, encode_utf8 data = Some encoded /\ d = wire encoded.

(** The effects the read loop and [_dispatch] produce themselves: log
    records, calls of plain callbacks, new tasks. *)
Definition is_local (e : Effect) : bool :=
  match e with
  | ELog _ | ECall _ _ | ESpawn _ _ => true
  | _ => false
  end.

(** The delays of the calls to [asyncio.sleep] in a trace. *)
Definition sleeps (t : list Effect) : list N :=
  flat_map (fun e => match e with ESleep n => [n] | _ => [] end) t.

(** What [finally] does with the writer attribute. *)
Definition closing (wr : option nat) : list Effect :=
  match wr with
  | Some w => [EClose w; EWaitClosed w]
  | None => []
  end.

(** The outcome of the [wait_closed] of a block that closes the writer
    attribute [wr]; without a writer nothing is awaited. *)
Definition close_outcome (wr : option nat) (closed : option exn)
  : option exn :=
  match wr with
  | Some _ => closed
  | None => None
  end.

(** What follows an awaited call in a trace: [t] when the call returned,
    nothing when it raised. *)
Definition after (answer : option exn) (t : list Effect) : list Effect :=
  match answer with
  | None => t
  | Some _ => []
  end.

(** Of a sequence of calls, each with the outcome of its drain, the calls
    that are made when an exception ends the sequence: those up to and
    including the first whose drain raises, together with that exception. *)
Fixpoint made {A : Type} (calls : list (A * option exn))
  : list A * option exn :=
  match calls with
  | [] => ([], None)
  | (x, None) :: calls' => let '(l, r) := made calls' in (x :: l, r)
  | (x, Some e) :: _ => ([x], Some e)
  end.

(** The messages of the tasks created in a trace for the built-in handler
    [_handle_ping], in creation order. *)
Definition pings (t : list Effect) : list Message :=
  flat_map (fun e => match e with ESpawn HandlePing m => [m] | _ => [] end) t.

(** The lines written when the tasks created in a trace for the built-in
    handler run on the client [self], each drain having the outcome
    [drained]. *)
Definition pongs (t : list Effect) (drained : option exn) (self : Client)
  : list pybytes :=
  flat_map (fun task => writes (the_trace (_handle_ping task drained self)))
    (pings t).

(** Two clients with the same registry and the same configuration. *)
Definition same_identity (c c' : Client) : Prop :=
  _handlers c = _handlers c' /\ server c = server c' /\ port c = port c' /\
  use_ssl c = use_ssl c' /\ nickname c = nickname c' /\
  username c = username c' /\ realname c = realname c' /\
  password c = password c'.

(** Sample clients for the examples: one as the constructor leaves it, one
    as [connect] has it after opening the streams 0 and 1, and one as the
    [finally] block leaves it after that connection. *)
Definition sample_new : Client :=
  init (py "irc.example.org") 6697 (py "bot") None None None true.

Definition sample_client : Client :=
  set_is_connected true (set_streams (Some 0%nat) (Some 1%nat) sample_new).

Definition sample_stale : Client :=
  set_is_connected false sample_client.

(** Sample outcomes for the examples: every drain returns; the drain of
    call 1 raises OSError and the others return. *)
Definition all_return : nat -> option exn := fun _ => None.

Definition second_fails : nat -> option exn :=
  fun i => match i with 1%nat => Some OSError | _ => None end.

(** A computation that leaves the client as it found it. *)
Definition keeps_client {A : Type} (m : M A) : Prop :=
  forall self, the_client (m self) = self.

(** * Properties *)

(** ** Strings *)

Lemma startswith_app (p s : pystr) : startswith p (p ++ s) = true.
Proof.
  induction p as [|c p IH]; simpl; [done|].
  by rewrite N.eqb_refl, IH.
Qed.

Lemma startswith_inv (p s : pystr) :
  startswith p s = true -> s = p ++ skipn (length p) s.
Proof.
  revert s; induction p as [|c p IH]; intros [|d s]; simpl; try done.
  intros [Hc Hp]%andb_true_iff.
  apply N.eqb_eq in Hc as ->. f_equal. by apply IH.
Qed.

Lemma split_once_inv (sep s a b : pystr) :
  split_once sep s = Some (a, b) -> s = a ++ sep ++ b.
Proof.
  revert a; induction s as [|c s IH]; intros a; simpl.
  - destruct (startswith sep []) eqn:E; [|done].
    intros [= <- <-]. by apply startswith_inv in E.
  - destruct (startswith sep (c :: s)) eqn:E.
    + intros [= <- <-]. by apply startswith_inv in E.
    + destruct (split_once sep s) as [[a' b']|]; [|done].
      intros [= <- <-]. simpl. f_equal. by apply IH.
Qed.

Lemma contains_split_once (sep s : pystr) :
  contains sep s = true -> is_Some (split_once sep s).
Proof.
  induction s as [|c s IH]; simpl.
  - rewrite orb_false_r. intros ->. eauto.
  - destruct (startswith sep (c :: s)); [eauto|]. simpl.
    intros [[a b] ->]%IH. eauto.
Qed.

Lemma split_once_contains (sep s : pystr) :
  contains sep s = false -> split_once sep s = None.
Proof.
  induction s as [|c s IH]; simpl.
  - rewrite orb_false_r. by intros ->.
  - intros [-> Hs]%orb_false_iff. by rewrite IH.
Qed.

Lemma split_once_here (sep s : pystr) :
  startswith sep s = true ->
  split_once sep s = Some ([], skipn (length sep) s).
Proof. destruct s; simpl; by intros ->. Qed.

(** The split happens at an occurrence before which no occurrence starts. *)
Lemma split_once_leftmost (sep a b : pystr) :
  (forall a1 c a2, a = a1 ++ c :: a2 ->
     startswith sep (c :: a2 ++ sep ++ b) = false) ->
  split_once sep (a ++ sep ++ b) = Some (a, b).
Proof.
  induction a as [|c a IH]; intros Hfirst.
  - simpl. rewrite split_once_here by apply startswith_app.
    by rewrite skipn_app, skipn_all, Nat.sub_diag.
  - cbn [app split_once]. cbn [app] in Hfirst.
    rewrite (Hfirst [] c a eq_refl).
    rewrite IH; [done|].
    intros a1 d a2 ->. by apply (Hfirst (c :: a1) d a2).
Qed.

Lemma split_once_char (x : N) (a b : pystr) :
  x ∉ a -> split_once [x] (a ++ x :: b) = Some (a, b).
Proof.
  intros Hx. apply (split_once_leftmost [x]).
  intros a1 c a2 ->. simpl. rewrite andb_true_r.
  apply N.eqb_neq. intros <-. apply Hx.
  apply elem_of_app. right. apply elem_of_cons. by left.
Qed.

Lemma split_once_char_None (x : N) (s : pystr) :
  x ∉ s -> split_once [x] s = None.
Proof.
  induction s as [|c s IH]; [done|].
  intros Hx. simpl. rewrite andb_true_r.
  apply not_elem_of_cons in Hx as [Hc Hs].
  destruct (N.eqb_spec x c) as [->|_]; [done|].
  by rewrite IH.
Qed.

Lemma partition_char_None (x : N) (s : pystr) :
  x ∉ s -> partition [x] s = (s, [], []).
Proof. intros Hx. unfold partition. by rewrite split_once_char_None. Qed.

(** For a separator of two different characters an occurrence cannot
    straddle the end of the text before it. *)
Lemma split_once_pair (x y : N) (a b : pystr) :
  x <> y -> contains [x; y] a = false ->
  split_once [x; y] (a ++ [x; y] ++ b) = Some (a, b).
Proof.
  intros Hxy Ha. apply split_once_leftmost.
  intros a1 c a2 ->.
  induction a1 as [|d a1 IH].
  - simpl in Ha. apply orb_false_iff in Ha as [Ha _].
    destruct a2 as [|e a2]; simpl in *.
    + rewrite andb_true_r.
      destruct (N.eqb_spec x c) as [->|]; [|done]. simpl.
      by apply N.eqb_neq.
    + by rewrite andb_true_r in *.
  - apply IH. simpl in Ha. by apply orb_false_iff in Ha as [_ Ha].
Qed.

Lemma contains_app_sep (sep a b : pystr) : contains sep (a ++ sep ++ b) = true.
Proof.
  induction a as [|c a IH]; simpl.
  - pose proof (startswith_app sep b) as H.
    destruct (sep ++ b); simpl; by rewrite H.
  - rewrite IH. apply orb_true_r.
Qed.

Lemma lstrip_head (s : pystr) :
  lstrip s = [] \/ exists c t, lstrip s = c :: t /\ isspace c = false.
Proof.
  induction s as [|c s IH]; simpl; [by left|].
  destruct (isspace c) eqn:E; [done|]. right; eauto.
Qed.

Lemma lstrip_app_nonspace (l r : pystr) (c : N) :
  isspace c = false -> lstrip (l ++ c :: r) = lstrip l ++ c :: r.
Proof.
  intros Hc. induction l as [|d l IH]; simpl.
  - by rewrite Hc.
  - destruct (isspace d); done.
Qed.

Lemma rstrip_cons_nonspace (c : N) (t : pystr) :
  isspace c = false -> rstrip (c :: t) = c :: rstrip t.
Proof.
  intros Hc. unfold rstrip. simpl.
  rewrite lstrip_app_nonspace by done.
  by rewrite rev_app_distr.
Qed.

(** A stripped line is empty or ends with a character that is not white
    space. *)
Lemma rstrip_last (s : pystr) :
  rstrip s = [] \/ exists t c, rstrip s = t ++ [c] /\ isspace c = false.
Proof.
  unfold rstrip. destruct (lstrip_head (rev s)) as [->|(c & t & -> & Hc)].
  - by left.
  - right. exists (rev t), c. done.
Qed.

Lemma strip_last (s : pystr) :
  strip s = [] \/ exists t c, strip s = t ++ [c] /\ isspace c = false.
Proof. apply rstrip_last. Qed.

(** ... and starts with one. *)
Lemma strip_head (s : pystr) :
  strip s = [] \/ exists c t, strip s = c :: t /\ isspace c = false.
Proof.
  unfold strip. destruct (lstrip_head s) as [->|(c & t & -> & Hc)].
  - by left.
  - right. rewrite rstrip_cons_nonspace by done. eauto.
Qed.

Lemma words_spaces (s : pystr) :
  split_ws s = [] <-> Forall (fun c => isspace c = true) s.
Proof.
  unfold split_ws. induction s as [|c s IH]; simpl.
  - split; [constructor|done].
  - destruct (words s) as [w ws]. destruct (isspace c) eqn:E; simpl.
    + rewrite IH. split; [by constructor|by inversion 1].
    + split; [done|]. inversion 1; congruence.
Qed.

(** No word of [s.split()] is empty. *)
Lemma split_ws_nonempty (s : pystr) : Forall (fun w => w <> []) (split_ws s).
Proof.
  unfold split_ws.
  assert (forall w ws, Forall (fun w : pystr => w <> []) ws ->
            Forall (fun w : pystr => w <> []) (cons_word w ws)) as Hcons.
  { intros [|d w] ws Hws; simpl; [done|]. by constructor. }
  enough (Forall (fun w : pystr => w <> []) (words s).2) as H.
  { destruct (words s) as [w ws]. by apply Hcons. }
  induction s as [|c s IH]; simpl; [constructor|].
  destruct (words s) as [w ws]. destruct (isspace c); simpl in *; auto.
Qed.

Lemma split_ws_snoc_nonspace (t : pystr) (c : N) :
  isspace c = false -> split_ws (t ++ [c]) <> [].
Proof.
  intros Hc. rewrite words_spaces, Forall_app, Forall_singleton.
  intros [_ H]. congruence.
Qed.


Lemma split_once_char_inv (x : N) (s a b : pystr) :
  split_once [x] s = Some (a, b) -> s = a ++ x :: b /\ x ∉ a.
Proof.
  intros H. split; [by apply split_once_inv in H|].
  revert a H; induction s as [|c s IH]; intros a; simpl; [done|].
  rewrite andb_true_r. destruct (N.eqb_spec x c) as [->|Hne].
  - intros [= <- <-]. apply not_elem_of_nil.
  - destruct (split_once [x] s) as [[a' b']|]; [|done].
    intros [= <- <-]. specialize (IH a' eq_refl).
    by apply not_elem_of_cons.
Qed.

Lemma split_once_nil_head (x : N) (s b : pystr) :
  split_once [x] s = Some ([], b) <-> s = x :: b.
Proof.
  split.
  - intros H. by apply split_once_inv in H.
  - intros ->. simpl. by rewrite N.eqb_refl.
Qed.

Lemma spaces_no_space_colon (ws : pystr) :
  Forall (fun c => isspace c = true) ws -> contains [32; 58] ws = false.
Proof.
  induction 1 as [|c ws Hc Hws IH]; [done|].
  cbn [contains]. rewrite IH, orb_false_r.
  destruct ws as [|d ws]; cbn [startswith]; [apply andb_false_r|].
  inversion_clear Hws as [|? ? Hd _].
  destruct (N.eqb_spec 58 d) as [<-|_]; [done|].
  apply andb_false_r.
Qed.

(** The prefix block on a stripped line that starts with a colon: the token
    up to the first space is the prefix, the text after that space is the
    rest. *)
Lemma parse_prefix_colon (tok rest : pystr) :
  32 ∉ tok ->
  parse_prefix (58 :: tok ++ 32 :: rest) =
    let '(nick, _, user_host) := partition [33] tok in
    let '(user, _, host) := partition [64] user_host in
    Ok (Some (mkPrefix nick (or_None user) (or_None host)), rest).
Proof.
  intros Htok. unfold parse_prefix.
  change (py ":") with [58]. change (py " ") with [32].
  change (py "!") with [33]. change (py "@") with [64].
  change (startswith [58] (58 :: tok ++ 32 :: rest)) with true. cbv iota.
  change (58 :: tok ++ 32 :: rest) with ((58 :: tok) ++ 32 :: rest).
  rewrite split_once_char; [done|]. by apply not_elem_of_cons.
Qed.

(** Conversely, the shape of a line on which the prefix block finds a
    prefix. *)
Lemma parse_prefix_Some (line rest : pystr) (p : Prefix) :
  parse_prefix line = Ok (Some p, rest) ->
  exists tok, line = 58 :: tok ++ 32 :: rest /\ 32 ∉ tok.
Proof.
  unfold parse_prefix. change (py ":") with [58]. change (py " ") with [32].
  destruct (startswith [58] line) eqn:Hcolon; [|done].
  destruct (split_once [32] line) as [[a b]|] eqn:Hsplit; [|done].
  apply split_once_char_inv in Hsplit as [-> Ha].
  destruct (partition _ _) as [[? ?] ?]. destruct (partition _ _) as [[? ?] ?].
  intros [= _ <-]. destruct a as [|c tok]; cbn [app startswith] in Hcolon.
  - done.
  - rewrite andb_true_r in Hcolon. apply N.eqb_eq in Hcolon as <-.
    exists tok. split; [done|]. by apply not_elem_of_cons in Ha as [_ Ha].
Qed.

Lemma parse_prefix_None (line rest : pystr) :
  parse_prefix line = Ok (None, rest) ->
  rest = line /\ startswith [58] line = false.
Proof.
  unfold parse_prefix. change (py ":") with [58].
  destruct (startswith [58] line); [|by intros [= <-]].
  destruct (split_once _ line) as [[a b]|]; [|done].
  destruct (partition _ _) as [[? ?] ?]. destruct (partition _ _) as [[? ?] ?].
  done.
Qed.

(** The parameter block on a text that has a trailing part. *)
Lemma parse_params_trailing (before after : pystr) :
  contains [32; 58] before = false ->
  parse_params (before ++ [32; 58] ++ after) = Ok (split_ws before ++ [after]).
Proof.
  intros Hbefore. unfold parse_params. change (py " :") with [32; 58].
  rewrite contains_app_sep, split_once_pair; done.
Qed.

(** The parameter list is never empty on a text that ends with a character
    which is not white space. *)
Lemma parse_params_nonempty (t : pystr) (c : N) :
  isspace c = false ->
  exists p ps, parse_params (t ++ [c]) = Ok (p :: ps).
Proof.
  intros Hc. unfold parse_params.
  destruct (contains _ _) eqn:Hsep.
  - apply contains_split_once in Hsep as [[parts trailing] ->].
    destruct (split_ws parts); simpl; eauto.
  - pose proof (split_ws_snoc_nonspace t c Hc).
    destruct (split_ws (t ++ [c])); [done|eauto].
Qed.

Lemma upper_app (a b : pystr) : upper (a ++ b) = upper a ++ upper b.
Proof. apply flat_map_app. Qed.

Lemma ascii_upper_lt (c : N) : c < 128 -> ascii_upper c < 128.
Proof.
  unfold ascii_upper. intros Hc.
  destruct (_ && _) eqn:E; lia.
Qed.

Lemma ascii_upper_idem (c : N) : ascii_upper (ascii_upper c) = ascii_upper c.
Proof.
  unfold ascii_upper.
  destruct ((97 <=? c) && (c <=? 122)) eqn:E; [|by rewrite E].
  apply andb_true_iff in E as [H1%N.leb_le H2%N.leb_le].
  destruct ((97 <=? c - 32) && (c - 32 <=? 122)) eqn:E'; [|done].
  apply andb_true_iff in E' as [H3%N.leb_le H4%N.leb_le]. lia.
Qed.

Section CaseTable.

(** What the development needs of the case table beyond ASCII: no code
    point is mapped to the empty string, and upper-casing the image of a code
    point changes nothing. Both hold of the tables of the interpreter. *)
Hypothesis unicode_upper_nonempty : forall c, 128 <= c -> unicode_upper c <> [].
Hypothesis unicode_upper_idem :
  forall c, 128 <= c -> upper (unicode_upper c) = unicode_upper c.

Lemma upper_nil (s : pystr) : upper s = [] -> s = [].
Proof using unicode_upper_nonempty.
  destruct s as [|c s]; [done|]. unfold upper. simpl.
  intros [H _]%app_eq_nil. unfold upper_cp in H.
  destruct (N.ltb_spec c 128); [done|]. by apply unicode_upper_nonempty in H.
Qed.

Lemma upper_idem (s : pystr) : upper (upper s) = upper s.
Proof using unicode_upper_idem.
  induction s as [|c s IH]; [done|].
  change (upper (c :: s)) with (upper_cp c ++ upper s).
  rewrite upper_app, IH. f_equal.
  unfold upper_cp. destruct (N.ltb_spec c 128) as [Hc|Hc].
  - unfold upper. simpl. unfold upper_cp.
    apply ascii_upper_lt, N.ltb_lt in Hc. rewrite Hc.
    by rewrite ascii_upper_idem.
  - by apply unicode_upper_idem.
Qed.

(** C2 (amended). On every line on which [parse] returns a message, the
    command of that message is equal to its own upper-case form, and it is
    empty exactly when the stripped line is a prefix token followed by white
    space only and a final space-colon pair (no command token, empty
    trailing part); on every other line it is non-empty. *)
Theorem parse_command_upper_nonempty (line : pystr) (m : Message) :
  parse line = Ok m ->
  upper (command m) = command m /\
  (command m = [] <->
   exists tok ws,
     strip line = py ":" ++ tok ++ py " " ++ ws ++ py " :" /\
     (32 ∉ tok) /\ Forall (fun c => isspace c = true) ws).
Proof using unicode_upper_nonempty unicode_upper_idem.
  unfold parse.
  destruct (parse_prefix (strip line)) as [[pfx rest]|] eqn:Hpre; [|done].
  destruct (parse_params rest) as [[|cmd ps]|] eqn:Hpar; try done.
  intros [= <-]. cbn [command]. split; [apply upper_idem|]. split.
  - intros ->%upper_nil. unfold parse_params in Hpar.
    change (py " :") with [32; 58] in Hpar.
    destruct (contains [32; 58] rest).
    + destruct (split_once [32; 58] rest) as [[parts trailing]|] eqn:Hs;
        [|done].
      apply split_once_inv in Hs. injection Hpar as Hpar.
      pose proof (split_ws_nonempty parts) as Hne.
      destruct (split_ws parts) as [|w ws'] eqn:Hw.
      * injection Hpar as -> <-. apply words_spaces in Hw.
        rewrite app_nil_r in Hs. destruct pfx as [p|].
        -- apply parse_prefix_Some in Hpre as (tok & Hline & Htok).
           exists tok, parts. by rewrite Hline, Hs.
        -- apply parse_prefix_None in Hpre as [-> _].
           destruct (strip_head line) as [E|(c & t & E & Hc)];
             rewrite E in Hs.
           ++ by destruct parts.
           ++ destruct parts as [|d parts]; injection Hs as -> _; [done|].
              inversion_clear Hw. congruence.
      * injection Hpar as -> _. by inversion_clear Hne.
    + injection Hpar as Hpar. pose proof (split_ws_nonempty rest) as Hne.
      rewrite Hpar in Hne. by inversion_clear Hne.
  - intros (tok & ws & Hline & Htok & Hws). rewrite Hline in Hpre.
    change (py ":" ++ tok ++ py " " ++ ws ++ py " :")
      with (58 :: tok ++ 32 :: ws ++ [32; 58] ++ []) in Hpre.
    rewrite parse_prefix_colon in Hpre by done.
    destruct (partition [33] tok) as [[? ?] ?].
    destruct (partition [64] _) as [[? ?] ?]. injection Hpre as _ <-.
    change (ws ++ [32; 58]) with (ws ++ [32; 58] ++ []) in Hpar.
    rewrite parse_params_trailing in Hpar by by apply spaces_no_space_colon.
    apply words_spaces in Hws. rewrite Hws in Hpar. by injection Hpar as <- _.
Qed.

End CaseTable.


(** ** The parser *)

(** C1 (amended). On every line whose text after the prefix block has a
    space-colon pair, with at least one word before the first such pair,
    [parse] returns the first of these words upper-cased as the command, the
    other words as parameters, and after them all the text after the pair,
    character for character, as one last parameter. *)
Theorem parse_trailing_verbatim
    (line rest before after tok : pystr) (toks : list pystr)
    (pfx : option Prefix) :
  parse_prefix (strip line) = Ok (pfx, rest) ->
  rest = before ++ py " :" ++ after ->
  contains (py " :") before = false ->
  split_ws before = tok :: toks ->
  parse line = Ok (mkMessage pfx (upper tok) (toks ++ [after])).
Proof.
  intros Hpre -> Hfirst Hwords. unfold parse. rewrite Hpre.
  change (py " :") with [32; 58] in *.
  by rewrite parse_params_trailing, Hwords.
Qed.

(** C9 (amended). On every line on which [parse] returns a message with a
    prefix, the nickname of the prefix is empty exactly when the stripped
    line starts with a colon followed by a space or by an exclamation mark;
    otherwise it is non-empty. *)
Theorem parse_prefix_nick (line : pystr) (m : Message) (p : Prefix) :
  parse line = Ok m ->
  prefix m = Some p ->
  (nick p = [] <->
   startswith (py ": ") (strip line) = true \/
   startswith (py ":!") (strip line) = true).
Proof.
  unfold parse.
  destruct (parse_prefix (strip line)) as [[pfx rest]|] eqn:Hpre; [|done].
  destruct (parse_params rest) as [[|cmd ps]|]; try done.
  intros [= <-]. cbn [prefix]. intros ->.
  destruct (parse_prefix_Some _ _ _ Hpre) as (tok & Hline & Htok).
  rewrite Hline in Hpre |- *. rewrite parse_prefix_colon in Hpre by done.
  change (py ": ") with [58; 32]. change (py ":!") with [58; 33].
  destruct tok as [|c tok].
  - injection Hpre as <-. split; [by left|done].
  - apply not_elem_of_cons in Htok as [Hc _].
    cbn [app startswith]. rewrite !andb_true_r.
    change (58 =? 58) with true. cbn [andb].
    unfold partition at 1 in Hpre. cbn [split_once startswith] in Hpre.
    rewrite andb_true_r in Hpre.
    destruct (N.eqb_spec 33 c) as [<-|Hbang].
    + destruct (partition [64] _) as [[? ?] ?]. injection Hpre as <-.
      split; [by right|done].
    + destruct (N.eqb_spec 32 c) as [<-|_]; [done|].
      destruct (split_once [33] tok) as [[a b]|];
        destruct (partition [64] _) as [[? ?] ?]; injection Hpre as <-;
        cbn [nick]; (split; [done|by intros [?|?]]).
Qed.

(** C10. On every line whose stripped form starts with a prefix token
    [:nick@host] that has no exclamation mark, [parse] returns a message
    whose prefix has the whole of [nick@host] as its nickname and neither
    user nor host. *)
Theorem parse_prefix_without_bang (line nick0 host0 rest : pystr) :
  strip line = py ":" ++ nick0 ++ py "@" ++ host0 ++ py " " ++ rest ->
  32 ∉ nick0 -> 33 ∉ nick0 -> 32 ∉ host0 -> 33 ∉ host0 ->
  exists cmd ps,
    parse line =
      Ok (mkMessage (Some (mkPrefix (nick0 ++ py "@" ++ host0) None None))
            cmd ps).
Proof.
  intros Hline Hn1 Hn2 Hh1 Hh2. unfold parse.
  assert (exists r c, rest = r ++ [c] /\ isspace c = false)
    as (r & c & -> & Hc).
  { change (py " ") with [32] in Hline.
    destruct (strip_last line) as [E|(t & c & E & Hc)]; rewrite E in Hline.
    - done.
    - destruct rest as [|d rest _] using rev_ind.
      + rewrite app_nil_r, !app_assoc in Hline.
        by apply app_inj_tail in Hline as [_ ->].
      + exists rest, d. split; [done|].
        rewrite !app_assoc in Hline. by apply app_inj_tail in Hline as [_ <-]. }
  rewrite Hline.
  change (py ":" ++ nick0 ++ py "@" ++ host0 ++ py " " ++ r ++ [c])
    with (58 :: (nick0 ++ 64 :: host0 ++ 32 :: r ++ [c])).
  replace (nick0 ++ 64 :: host0 ++ 32 :: r ++ [c])
    with ((nick0 ++ 64 :: host0) ++ 32 :: r ++ [c])
    by by rewrite <- app_assoc.
  assert (forall x, x ∉ nick0 -> x ∉ host0 -> x <> 64 ->
            x ∉ nick0 ++ 64 :: host0) as Hnotin.
  { intros x H1 H2 H3. rewrite not_elem_of_app, not_elem_of_cons. done. }
  rewrite parse_prefix_colon by by apply Hnotin.
  rewrite partition_char_None by by apply Hnotin.
  rewrite partition_char_None by apply not_elem_of_nil. cbn [or_None].
  destruct (parse_params_nonempty r c Hc) as (p & ps & ->).
  change (py "@") with [64]. eauto.
Qed.


(** ** The monad *)

Lemma bind_run {A B : Type} (m : M A) (k : A -> M B) (self : Client) :
  (m ≫= k) self =
    match m self with
    | (Ok a, self', t) =>
        let '(r, self'', t') := k a self' in (r, self'', t ++ t')
    | (Raise e, self', t) => (Raise e, self', t)
    end.
Proof. done. Qed.

Lemma keeps_client_bind {A B : Type} (m : M A) (k : A -> M B) :
  keeps_client m -> (forall a, keeps_client (k a)) -> keeps_client (m ≫= k).
Proof.
  intros Hm Hk self. rewrite bind_run. specialize (Hm self).
  destruct (m self) as [[[a|e] self'] t]; cbn in Hm; subst self'; [|done].
  specialize (Hk a self). by destruct (k a self) as [[r self''] t'].
Qed.

Lemma keeps_client_ret {A : Type} (a : A) : keeps_client (mret a).
Proof. done. Qed.

Lemma keeps_client_emit (e : Effect) : keeps_client (emit e).
Proof. done. Qed.

Lemma keeps_client_raise {A : Type} (e : exn) : keeps_client (@raise A e).
Proof. done. Qed.

Lemma keeps_client_lift {A : Type} (r : result A) : keeps_client (lift r).
Proof. done. Qed.

Lemma keeps_client_get : keeps_client get_self.
Proof. done. Qed.

Lemma keeps_client_try {A : Type} (m : M A) (h : exn -> M A) :
  keeps_client m -> (forall e, keeps_client (h e)) ->
  keeps_client (try_except m h).
Proof.
  intros Hm Hh self. unfold try_except. specialize (Hm self).
  destruct (m self) as [[[a|e] self'] t]; cbn in Hm; subst self'; [done|].
  specialize (Hh e self). by destruct (h e self) as [[r self''] t'].
Qed.

Lemma keeps_client_for_each {A : Type} (l : list A) (body : A -> M unit) :
  (forall x, keeps_client (body x)) -> keeps_client (for_each l body).
Proof.
  intros Hbody. induction l as [|x l IH]; [done|].
  by apply keeps_client_bind.
Qed.

Lemma keeps_client_await (call : Effect) (answer : option exn) :
  keeps_client (await call answer).
Proof. intros self. by destruct answer. Qed.

Create HintDb airc.
#[local] Hint Resolve keeps_client_ret keeps_client_emit keeps_client_raise
  keeps_client_lift keeps_client_get keeps_client_await : airc.

Ltac keeps :=
  repeat first
    [ apply keeps_client_bind; [|intros ?]
    | apply keeps_client_try; [|intros ?]
    | apply keeps_client_for_each; intros ?
    | solve [auto with airc]
    | match goal with |- keeps_client (match ?x with _ => _ end) => destruct x end ].

Lemma keeps_client_send_raw (data : pystr) (drained : option exn) :
  keeps_client (send_raw data drained).
Proof. unfold send_raw. keeps. Qed.
#[local] Hint Resolve keeps_client_send_raw : airc.

Lemma keeps_client_quit (reason : pystr) (drained closed : option exn) :
  keeps_client (quit reason drained closed).
Proof. unfold quit. keeps. Qed.

Lemma keeps_client_register (drained : nat -> option exn) :
  keeps_client (_register drained).
Proof. unfold _register. keeps. Qed.

Lemma keeps_client_handle_ping (m : Message) (drained : option exn) :
  keeps_client (_handle_ping m drained).
Proof. unfold _handle_ping. keeps. Qed.

Lemma keeps_client_create_task (h : Handler) (m : Message) :
  keeps_client (create_task h m).
Proof. unfold create_task. keeps. Qed.
#[local] Hint Resolve keeps_client_create_task : airc.

Lemma keeps_client_dispatch (m : Message) : keeps_client (_dispatch m).
Proof. unfold _dispatch. keeps. Qed.
#[local] Hint Resolve keeps_client_dispatch keeps_client_register : airc.

Lemma keeps_client_handle_line (raw : pybytes) : keeps_client (handle_line raw).
Proof. unfold handle_line. keeps. Qed.
#[local] Hint Resolve keeps_client_handle_line : airc.

Lemma keeps_client_read_loop (reads : list read_result) :
  keeps_client (_read_loop reads).
Proof.
  induction reads as [|r reads IH]; cbn [_read_loop]; keeps.
Qed.
#[local] Hint Resolve keeps_client_read_loop : airc.

(** ** Sending *)

(** C7. Whatever the text, [send_raw] on a client that has no writer or is
    not connected returns normally, leaves the client as it was, calls
    [write] on no transport, and logs one record at level ERROR. *)
Theorem send_raw_not_connected (self : Client) (data : pystr)
    (drained : option exn) :
  _writer self = None \/ _is_connected self = false ->
  the_result (send_raw data drained self) = Ok tt /\
  the_client (send_raw data drained self) = self /\
  writes (the_trace (send_raw data drained self)) = [] /\
  the_trace (send_raw data drained self) = [ELog LogNotConnected] /\
  errors (the_trace (send_raw data drained self)) = [LogNotConnected].
Proof.
  intros Hdown.
  assert (send_raw data drained self = (Ok tt, self, [ELog LogNotConnected]))
    as ->.
  { unfold send_raw. rewrite bind_run. cbn.
    destruct Hdown as [-> | ->]; [done|]. by destruct (_writer self). }
  done.
Qed.

(** On a connected client: the write, the drain and, if the drain returned,
    the log record. *)
Lemma send_raw_connected (self : Client) (w : nat) (data : pystr)
    (encoded : pybytes) (drained : option exn) :
  _writer self = Some w -> _is_connected self = true ->
  encode_utf8 data = Some encoded ->
  send_raw data drained self =
    (answered drained, self,
     [EWrite w ((if (500 <? length encoded)%nat
                 then firstn 500 encoded else encoded) ++ CRLF);
      EDrain w] ++ after drained [ELog (LogSent data)]).
Proof.
  intros Hw Hc He. unfold send_raw. rewrite bind_run. cbn.
  rewrite Hw, Hc, He. by destruct drained.
Qed.

(** C5. On a connected client, [send_raw] of a text that has a UTF-8
    encoding makes one call to [write], with a payload followed by CR LF;
    the payload is the first 500 bytes of the encoding when the encoding is
    longer than 500 bytes, and the whole encoding otherwise. *)
Theorem send_raw_truncates (self : Client) (w : nat) (data : pystr)
    (encoded : pybytes) (drained : option exn) :
  _writer self = Some w -> _is_connected self = true ->
  encode_utf8 data = Some encoded ->
  exists payload,
    writes (the_trace (send_raw data drained self)) = [payload ++ CRLF] /\
    ((500 < length encoded)%nat -> payload = firstn 500 encoded) /\
    ((length encoded <= 500)%nat -> payload = encoded).
Proof.
  intros Hw Hc He.
  rewrite (send_raw_connected self w data encoded drained) by done.
  eexists. split; [by destruct drained|].
  destruct (Nat.ltb_spec 500 (length encoded)); split; (done || lia).
Qed.


(** ** The registry and dispatch *)

Lemma registered_cons (k : pystr) (h : Handler)
    (regs : list (pystr * Handler)) (key : pystr) :
  registered ((k, h) :: regs) key =
    (if bool_decide (upper k = key) then [h] else []) ++ registered regs key.
Proof.
  unfold registered. cbn [List.filter fst].
  by destruct (bool_decide (upper k = key)).
Qed.

Lemma handlers_on (command0 : pystr) (func : Handler) (self : Client)
    (key : pystr) :
  default [] (_handlers (on command0 func self) !! key) =
    default [] (_handlers self !! key) ++
    (if bool_decide (upper command0 = key) then [func] else []).
Proof.
  unfold on. cbn. rewrite lookup_insert.
  destruct (decide (upper command0 = key)) as [<-|Hne].
  - by rewrite bool_decide_eq_true_2.
  - by rewrite bool_decide_eq_false_2, app_nil_r.
Qed.

Lemma handlers_register_all (regs : list (pystr * Handler)) (self : Client)
    (key : pystr) :
  default [] (_handlers (register_all regs self) !! key) =
    default [] (_handlers self !! key) ++ registered regs key.
Proof.
  revert self; induction regs as [|[k h] regs IH]; intros self.
  - unfold registered. cbn. by rewrite app_nil_r.
  - cbn [register_all fold_left]. fold (register_all regs (on k h self)).
    by rewrite IH, handlers_on, registered_cons, app_assoc.
Qed.

Lemma handlers_init (host0 : pystr) (port0 : N) (nickname0 : pystr)
    (username0 realname0 password0 : option pystr) (ssl0 : bool)
    (key : pystr) :
  default []
    (_handlers
       (init host0 port0 nickname0 username0 realname0 password0 ssl0)
     !! key) =
  registered [(py "PING", HandlePing)] key.
Proof.
  unfold init. rewrite handlers_on, registered_cons. cbn.
  by rewrite app_nil_r.
Qed.

Lemma bind_get {A : Type} (k : Client -> M A) (self : Client) :
  (get_self ≫= k) self = k self self.
Proof. rewrite bind_run. cbn. by destruct (k self self) as [[? ?] ?]. Qed.

Lemma bind_ret_l {A B : Type} (a : A) (k : A -> M B) (self : Client) :
  (mret a ≫= k) self = k a self.
Proof. rewrite bind_run. cbn. by destruct (k a self) as [[? ?] ?]. Qed.

Lemma bind_ret_r (m : M unit) (self : Client) :
  (m ;; mret tt) self = m self.
Proof.
  rewrite bind_run. destruct (m self) as [[[[]|e] s] t]; [|done].
  cbn. by rewrite app_nil_r.
Qed.

Lemma bind_ext {A B : Type} (m : M A) (k k' : A -> M B) (self : Client) :
  (forall a s, k a s = k' a s) -> (m ≫= k) self = (m ≫= k') self.
Proof.
  intros Hk. rewrite !bind_run.
  destruct (m self) as [[[a|e] s] t]; [|done]. by rewrite Hk.
Qed.

Lemma spawned_map (m : Message) (l : list Handler) :
  spawned (List.map (fun h => ESpawn h m) l) = l.
Proof.
  induction l as [|h l IH]; [done|].
  unfold spawned in *. cbn [List.map flat_map app]. by rewrite IH.
Qed.

(** The loop of [_dispatch] over a list of coroutine functions creates one
    task per element, in order. *)
Lemma for_each_coroutines (l : list Handler) (m : Message) (self : Client) :
  Forall (fun h => is_coroutine h = true) l ->
  for_each l (fun h => create_task h m) self =
    (Ok tt, self, List.map (fun h => ESpawn h m) l).
Proof.
  induction 1 as [|h l Hh _ IH]; [done|].
  cbn [for_each]. rewrite bind_run.
  assert (create_task h m self = (Ok tt, self, [ESpawn h m])) as ->.
  { by destruct h as [|id []]. }
  by rewrite IH.
Qed.

Lemma pings_app (t1 t2 : list Effect) :
  pings (t1 ++ t2) = pings t1 ++ pings t2.
Proof. apply flat_map_app. Qed.

(** A loop of [_dispatch] over handlers other than the built-in one creates
    no task for it. *)
Lemma for_each_no_ping (l : list Handler) (m : Message) (self : Client) :
  ~ In HandlePing l ->
  pings (the_trace (for_each l (fun h => create_task h m) self)) = [].
Proof.
  induction l as [|h l IH]; [done|]. intros Hnot.
  cbn [for_each]. rewrite bind_run.
  destruct h as [|id [|]]; cbn.
  - destruct Hnot. by left.
  - specialize (IH (fun H => Hnot (or_intror H))).
    destruct (for_each l _ self) as [[r s'] t]. cbn in *. exact IH.
  - done.
Qed.

Lemma dispatch_run (m : Message) (self : Client) :
  _dispatch m self =
    (for_each (default [] (_handlers self !! command m))
       (fun handler => create_task handler m) ;;
     for_each (default [] (_handlers self !! py "*"))
       (fun handler => create_task handler m)) self.
Proof. unfold _dispatch. by rewrite bind_get. Qed.

Lemma registered_coroutines (regs : list (pystr * Handler)) (key : pystr) :
  Forall (fun kh => is_coroutine kh.2 = true) regs ->
  Forall (fun h => is_coroutine h = true) (registered regs key).
Proof.
  induction 1 as [|[k h] regs Hh _ IH]; [constructor|].
  rewrite registered_cons. destruct (bool_decide _); cbn; auto.
Qed.

Lemma registered_In (regs : list (pystr * Handler)) (key : pystr)
    (h : Handler) :
  In h (registered regs key) -> In h (List.map snd regs).
Proof.
  clear decode_utf8.
  induction regs as [|[k h'] regs IH]; [done|].
  rewrite registered_cons. destruct (bool_decide _); cbn; tauto.
Qed.

(** A registration is listed under one key only. *)
Lemma registered_count (regs : list (pystr * Handler)) (key1 key2 : pystr)
    (h : Handler) :
  key1 <> key2 ->
  (count_occ Handler_eq_dec (registered regs key1) h +
   count_occ Handler_eq_dec (registered regs key2) h <=
   count_occ Handler_eq_dec (List.map snd regs) h)%nat.
Proof.
  intros Hkeys. induction regs as [|[k h'] regs IH]; [done|].
  rewrite !registered_cons, !count_occ_app. cbn [List.map snd].
  destruct (decide (upper k = key1)) as [H1|H1];
    destruct (decide (upper k = key2)) as [H2|H2]; [congruence|..].
  - rewrite (bool_decide_eq_true_2 _ H1), (bool_decide_eq_false_2 _ H2).
    cbn [count_occ]. destruct (Handler_eq_dec h' h); cbn; lia.
  - rewrite (bool_decide_eq_false_2 _ H1), (bool_decide_eq_true_2 _ H2).
    cbn [count_occ]. destruct (Handler_eq_dec h' h); cbn; lia.
  - rewrite (bool_decide_eq_false_2 _ H1), (bool_decide_eq_false_2 _ H2).
    cbn [count_occ]. destruct (Handler_eq_dec h' h); cbn; lia.
Qed.


Section Registry.

(** A client whose registry is the one built by the constructor followed by
    the registrations [regs], in that order. *)
Variables (host0 : pystr) (port0 : N) (nickname0 : pystr).
Variables (username0 realname0 password0 : option pystr) (ssl0 : bool).
Variable regs : list (pystr * Handler).
Variable self : Client.
Hypothesis registry :
  _handlers self =
  _handlers
    (register_all regs
       (init host0 port0 nickname0 username0 realname0 password0 ssl0)).

Lemma registry_lookup (key : pystr) :
  default [] (_handlers self !! key) =
    registered ((py "PING", HandlePing) :: regs) key.
Proof using registry.
  rewrite registry, handlers_register_all, handlers_init.
  by rewrite (registered_cons _ _ regs), (registered_cons _ _ []), app_nil_r.
Qed.

(** When every registered handler is a coroutine function, [_dispatch]
    creates one task per registration under the command, then one per
    registration under the wildcard key. *)
Lemma dispatch_trace (m : Message) :
  Forall (fun kh => is_coroutine kh.2 = true) regs ->
  _dispatch m self =
    (Ok tt, self,
     List.map (fun h => ESpawn h m)
       (registered ((py "PING", HandlePing) :: regs) (command m) ++
        registered ((py "PING", HandlePing) :: regs) (py "*"))).
Proof using registry.
  intros Hco.
  assert (forall key,
            Forall (fun h => is_coroutine h = true)
              (registered ((py "PING", HandlePing) :: regs) key)) as Hall.
  { intros key. apply registered_coroutines. by constructor. }
  rewrite dispatch_run, bind_run, !registry_lookup.
  rewrite !for_each_coroutines by done.
  by rewrite List.map_app.
Qed.

(** C6 (amended). When every registered handler is a coroutine function,
    [_dispatch] returns normally after creating, in this order, one task per
    registration made under a key whose upper-case form is the command of the
    message, in registration order, then one task per registration made under
    the wildcard key, in registration order. A handler registered once in
    all, for the command or for the wildcard, gets exactly one task if the
    command is not the wildcard key itself; a handler registered for the
    wildcard gets a task whatever the command. *)
Theorem dispatch_schedules_registered (m : Message) :
  Forall (fun kh => is_coroutine kh.2 = true) regs ->
  let history := (py "PING", HandlePing) :: regs in
  let scheduled := spawned (the_trace (_dispatch m self)) in
  the_result (_dispatch m self) = Ok tt /\
  the_trace (_dispatch m self) =
    List.map (fun h => ESpawn h m)
      (registered history (command m) ++ registered history (py "*")) /\
  (forall h,
     command m <> py "*" ->
     count_occ Handler_eq_dec (List.map snd history) h = 1%nat ->
     In h (registered history (command m)) \/
       In h (registered history (py "*")) ->
     count_occ Handler_eq_dec scheduled h = 1%nat) /\
  (forall h, In h (registered history (py "*")) -> In h scheduled).
Proof using registry.
  intros Hco history scheduled. subst scheduled.
  rewrite (dispatch_trace m Hco). fold history. cbn [the_result the_trace fst snd].
  rewrite spawned_map. split; [done|]. split; [done|]. split.
  - intros h Hcmd Hone Hin.
    pose proof (registered_count history (command m) (py "*") h Hcmd) as Hle.
    rewrite count_occ_app.
    assert (0 < count_occ Handler_eq_dec (registered history (command m)) h +
                count_occ Handler_eq_dec (registered history (py "*")) h)%nat.
    { destruct Hin as [Hin|Hin];
        apply (count_occ_In Handler_eq_dec) in Hin; lia. }
    lia.
  - intros h Hin. apply in_or_app. by right.
Qed.


End Registry.


(** ** The read loop *)

Lemma handle_line_result (raw : pybytes) (self : Client) :
  the_result (handle_line raw self) = Ok tt.
Proof.
  unfold handle_line. rewrite bind_run. cbn. unfold try_except.
  destruct (@mbind M _ _ _ _ _ self) as [[[[]|e] s] t]; done.
Qed.

Lemma handle_line_run (raw : pybytes) (self : Client) :
  handle_line raw self = (Ok tt, self, the_trace (handle_line raw self)).
Proof.
  pose proof (handle_line_result raw self) as Hr.
  pose proof (keeps_client_handle_line raw self) as Hc.
  destruct (handle_line raw self) as [[r s] t]. cbn in *. by subst.
Qed.

Lemma read_loop_line (b : N) (raw : pybytes) (reads0 : list read_result)
    (self : Client) :
  _is_connected self = true -> is_Some (_reader self) ->
  _read_loop (Line (b :: raw) :: reads0) self =
    (the_result (_read_loop reads0 self), self,
     the_trace (handle_line (b :: raw) self) ++
     the_trace (_read_loop reads0 self)).
Proof.
  intros Hc Hr. cbn [_read_loop]. rewrite bind_get, Hc.
  rewrite bool_decide_eq_true_2 by done. cbn [andb].
  rewrite bind_run, handle_line_run.
  pose proof (keeps_client_read_loop reads0 self) as Hk.
  destruct (_read_loop reads0 self) as [[r s] t]. cbn in *. by subst.
Qed.

Lemma read_loop_lines (lines : list pybytes) (more : list read_result)
    (self : Client) :
  _is_connected self = true -> is_Some (_reader self) ->
  Forall (fun raw => raw <> []) lines ->
  _read_loop (List.map Line lines ++ more) self =
    (the_result (_read_loop more self), self,
     flat_map (fun raw => the_trace (handle_line raw self)) lines ++
     the_trace (_read_loop more self)).
Proof.
  intros Hc Hr. induction 1 as [|raw lines Hraw _ IH].
  - cbn [List.map app flat_map].
    pose proof (keeps_client_read_loop more self) as Hk.
    destruct (_read_loop more self) as [[r s] t]. cbn in *. by subst.
  - destruct raw as [|b raw]; [done|].
    cbn [List.map app flat_map]. rewrite read_loop_line, IH by done.
    cbn [the_result the_trace fst snd]. by rewrite app_assoc.
Qed.

(** C8. While the client is connected and has a reader: handling a line that
    was read never raises and leaves the client as it was; a failure of
    [parse], or of [_dispatch], is logged at level ERROR as the last thing
    done for that line. The loop goes through any run of non-empty lines,
    whatever happens to each, and carries on with the reads that follow; it
    is still waiting after them if nothing follows, and returns at an empty
    read. It returns only at an empty read and raises only the exception of
    a failed read. *)
Theorem read_loop_survives_bad_lines (self : Client) (lines : list pybytes)
    (more : list read_result) :
  _is_connected self = true -> is_Some (_reader self) ->
  Forall (fun raw => raw <> []) lines ->
  (forall raw,
     let line := strip (decode_utf8 raw) in
     the_result (handle_line raw self) = Ok tt /\
     the_client (handle_line raw self) = self /\
     (forall e, parse line = Raise e ->
        the_trace (handle_line raw self) =
          [ELog (LogReceived line); ELog (LogLineFailed line e)]) /\
     (forall m e, parse line = Ok m ->
        the_result (_dispatch m self) = Raise e ->
        the_trace (handle_line raw self) =
          ELog (LogReceived line) :: the_trace (_dispatch m self) ++
          [ELog (LogLineFailed line e)])) /\
  _read_loop (List.map Line lines ++ more) self =
    (the_result (_read_loop more self), self,
     flat_map (fun raw => the_trace (handle_line raw self)) lines ++
     the_trace (_read_loop more self)) /\
  the_result (_read_loop (List.map Line lines) self) = Ok Suspended /\
  _read_loop (List.map Line lines ++ Line [] :: more) self =
    (Ok Returned, self,
     flat_map (fun raw => the_trace (handle_line raw self)) lines ++
     [ELog LogEmptyData]) /\
  (forall reads0,
     match the_result (_read_loop reads0 self) with
     | Ok Returned => In (Line []) reads0
     | Ok Suspended => True
     | Raise e => In (ReadError e) reads0
     end).
Proof.
  intros Hc Hr Hlines.
  assert (forall reads0, _read_loop reads0 self =
            match reads0 with
            | [] => (Ok Suspended, self, [])
            | ReadError e :: _ => (Raise e, self, [])
            | Line [] :: _ => (Ok Returned, self, [ELog LogEmptyData])
            | Line (b :: raw) :: reads' =>
                (the_result (_read_loop reads' self), self,
                 the_trace (handle_line (b :: raw) self) ++
                 the_trace (_read_loop reads' self))
            end) as Hstep.
  { intros [|[[|b raw]|e] reads0]; [| |by apply read_loop_line|];
      cbn [_read_loop]; rewrite bind_get, Hc;
      rewrite bool_decide_eq_true_2 by done; done. }
  split; [|split; [|split; [|split]]].
  - intros raw line. split; [apply handle_line_result|].
    split; [apply keeps_client_handle_line|]. split.
    + intros e He. unfold handle_line. fold line.
      rewrite bind_run. cbn. unfold try_except.
      rewrite bind_run. unfold lift at 1. by rewrite He.
    + intros m e Hm He. unfold handle_line. fold line.
      rewrite bind_run. cbn. unfold try_except.
      rewrite bind_run. unfold lift at 1. rewrite Hm.
      pose proof (keeps_client_dispatch m self) as Hk.
      destruct (_dispatch m self) as [[r s] t]. cbn in *. by subst.
  - by apply read_loop_lines.
  - rewrite <- (app_nil_r (List.map Line lines)).
    rewrite read_loop_lines by done. by rewrite (Hstep []).
  - rewrite read_loop_lines by done. by rewrite (Hstep (Line [] :: more)).
  - intros reads0. induction reads0 as [|[[|b raw]|e] reads0 IH];
      rewrite Hstep; cbn; auto.
    destruct (the_result (_read_loop reads0 self)) as [[]|e]; auto.
Qed.


(** ** The connection cycle *)

Lemma teardown_client (delay : N) (closed0 : option exn) (self : Client) :
  the_client (teardown delay closed0 self) = set_is_connected false self.
Proof.
  unfold teardown. rewrite bind_run. cbn.
  match goal with
  | |- context [@mbind M _ _ _ ?k get_self ?c] =>
      assert (keeps_client (get_self ≫= k)) as Hk by keeps;
      specialize (Hk c); destruct ((get_self ≫= k) c) as [[r s] t]
  end.
  by cbn in *.
Qed.

Lemma session_client (a : attempt) (self : Client) :
  the_client (session a self) =
    match opened a with
    | Ok rw =>
        set_is_connected true (set_streams (Some rw.1) (Some rw.2) self)
    | Raise _ => self
    end.
Proof.
  unfold session. rewrite bind_get, bind_run. cbn. rewrite bind_run.
  unfold lift at 1. destruct (opened a) as [[r w]|e]; [|done].
  cbn [fst snd]. rewrite bind_run. cbn. rewrite bind_run. cbn.
  match goal with
  | |- context [@mbind M _ _ _ ?k ?m ?c] =>
      assert (keeps_client (m ≫= k)) as Hk by keeps;
      specialize (Hk c); destruct ((m ≫= k) c) as [[r0 s0] t0]
  end.
  by cbn in *.
Qed.

Lemma session_fails (a : attempt) (self : Client) (e : exn) :
  opened a = Raise e -> the_result (session a self) = Raise e.
Proof.
  intros He. unfold session. rewrite bind_get, bind_run. cbn.
  rewrite bind_run. unfold lift at 1. by rewrite He.
Qed.

(** After a pass of the loop of [connect] the client is either connected,
    with the streams of this pass, or not connected. *)
Lemma connect_once_client (delay : N) (a : attempt) (self : Client) :
  (exists r w,
     opened a = Ok (r, w) /\
     the_client (connect_once delay a self) =
       set_is_connected true (set_streams (Some r) (Some w) self)) \/
  the_client (connect_once delay a self) =
    set_is_connected false (the_client (session a self)).
Proof.
  unfold connect_once. rewrite bind_run. unfold try_except.
  pose proof (session_client a self) as Hs.
  pose proof (session_fails a self) as Hf.
  destruct (session a self) as [[[[]|e] s] t]; cbn in Hs, Hf |- *.
  - right. rewrite bind_run.
    pose proof (teardown_client delay (closed a) s) as Ht.
    destruct (teardown delay (closed a) s) as [[[[]|e] s'] t']; cbn in *;
      by subst.
  - left. destruct (opened a) as [[r w]|e]; [|by specialize (Hf e eq_refl)].
    exists r, w. by subst.
  - right. assert (the_client (on_exception e s) = s) as Hk.
    { unfold on_exception. by destruct e. }
    destruct (on_exception e s) as [[[[]|e'] s'] t'] eqn:Ho; cbn in Hk;
      subst s'.
    + rewrite bind_run.
      pose proof (teardown_client delay (closed a) s) as Ht.
      destruct (teardown delay (closed a) s) as [[[[]|e''] s''] t''];
        cbn in *; by subst.
    + unfold on_exception in Ho. by destruct e.
    + unfold on_exception in Ho. by destruct e.
Qed.

(** C3 (amended). At every point of the life of a client (construction,
    registrations, passes of the connection loop, calls of [send_raw] and
    [quit], whether they return or raise) a client whose connected flag is
    set has a writer and a reader. The converse is not kept: the [finally]
    block of [connect] clears the flag and leaves the writer attribute as it
    is, and [quit] changes neither of them. A newly constructed client has no
    writer and is not connected. *)
Theorem connected_has_writer (self : Client) :
  lifecycle self ->
  (_is_connected self = true ->
   is_Some (_writer self) /\ is_Some (_reader self)) /\
  (forall delay closed0,
     _is_connected (the_client (teardown delay closed0 self)) = false /\
     _writer (the_client (teardown delay closed0 self)) = _writer self) /\
  (forall reason drained closed0,
     _is_connected (the_client (quit reason drained closed0 self)) =
       _is_connected self /\
     _writer (the_client (quit reason drained closed0 self)) =
       _writer self) /\
  (forall host0 port0 nickname0 username0 realname0 password0 ssl0,
     let new :=
       init host0 port0 nickname0 username0 realname0 password0 ssl0 in
     _writer new = None /\ _is_connected new = false).
Proof.
  intros Hlife. split; [|split; [|split]].
  - induction Hlife as
      [ | command0 func self _ IH | delay a self _ _
      | data drained self _ IH | reason drained closed0 self _ IH ].
    + done.
    + exact IH.
    + destruct (connect_once_client delay a self) as [(r & w & _ & ->)| ->].
      * cbn. eauto.
      * done.
    + by rewrite keeps_client_send_raw.
    + by rewrite keeps_client_quit.
  - intros delay closed0. by rewrite teardown_client.
  - intros reason drained closed0. by rewrite keeps_client_quit.
  - done.
Qed.

(** * Further properties *)

(** ** The parser *)

Lemma split_once_char_None_inv (x : N) (s : pystr) :
  split_once [x] s = None -> x ∉ s.
Proof.
  induction s as [|c s IH]; [intros _; apply not_elem_of_nil|].
  simpl. rewrite andb_true_r. destruct (N.eqb_spec x c) as [->|Hne]; [done|].
  destruct (split_once [x] s) as [[a b]|]; [done|].
  intros _. apply not_elem_of_cons. auto.
Qed.

(** After a space in a stripped line comes text that ends with a character
    which is not white space. *)
Lemma strip_after_space (line a rest : pystr) :
  strip line = a ++ 32 :: rest ->
  exists r c, rest = r ++ [c] /\ isspace c = false.
Proof.
  intros Hline.
  destruct (strip_last line) as [E|(t & c & E & Hc)]; rewrite E in Hline.
  - by destruct a.
  - destruct rest as [|d rest _] using rev_ind.
    + change (a ++ [32]) with (a ++ [32]) in Hline.
      by apply app_inj_tail in Hline as [_ ->].
    + exists rest, d. split; [done|].
      change (a ++ 32 :: rest ++ [d]) with (a ++ (32 :: rest) ++ [d]) in Hline.
      rewrite app_assoc in Hline. by apply app_inj_tail in Hline as [_ <-].
Qed.

(** [parse] fails on two kinds of lines only: with IndexError on a line
    that is empty once stripped, with ValueError on a line that, once
    stripped, starts with a colon and has no space. *)
Theorem parse_raises (line : pystr) (e : exn) :
  parse line = Raise e <->
  (e = IndexError /\ strip line = []) \/
  (e = ValueError /\ startswith (py ":") (strip line) = true /\
   32 ∉ strip line).
Proof.
  unfold parse, parse_prefix. change (py ":") with [58].
  change (py " ") with [32]. split.
  - destruct (startswith [58] (strip line)) eqn:Hcolon.
    + destruct (split_once [32] (strip line)) as [[a rest]|] eqn:Hsplit.
      * apply split_once_inv in Hsplit.
        destruct (strip_after_space _ _ _ Hsplit) as (r & c & -> & Hc).
        destruct (partition _ _) as [[? ?] ?].
        destruct (partition _ _) as [[? ?] ?].
        by destruct (parse_params_nonempty r c Hc) as (p & ps & ->).
      * intros [= <-]. right. by apply split_once_char_None_inv in Hsplit.
    + destruct (strip_last line) as [->|(t & c & -> & Hc)].
      * intros [= <-]. by left.
      * by destruct (parse_params_nonempty t c Hc) as (p & ps & ->).
  - intros [[-> ->]|(-> & -> & Hspace)]; [done|].
    by rewrite split_once_char_None.
Qed.

Lemma lstrip_spaces (pre s : pystr) :
  Forall (fun c => isspace c = true) pre -> lstrip (pre ++ s) = lstrip s.
Proof. induction 1 as [|c pre Hc _ IH]; [done|]. simpl. by rewrite Hc. Qed.

Lemma rstrip_spaces (s post : pystr) :
  Forall (fun c => isspace c = true) post -> rstrip (s ++ post) = rstrip s.
Proof.
  intros Hpost. unfold rstrip. rewrite rev_app_distr.
  rewrite lstrip_spaces; [done|]. by apply Forall_rev.
Qed.

Lemma lstrip_all_spaces (s : pystr) :
  Forall (fun c => isspace c = true) s -> lstrip s = [].
Proof. induction 1 as [|c s Hc _ IH]; [done|]. simpl. by rewrite Hc. Qed.

Lemma lstrip_app_spaces (s post : pystr) :
  Forall (fun c => isspace c = true) post ->
  exists post', lstrip (s ++ post) = lstrip s ++ post' /\
                Forall (fun c => isspace c = true) post'.
Proof.
  intros Hpost. induction s as [|c s IH].
  - exists []. by rewrite lstrip_all_spaces.
  - simpl. destruct (isspace c); [done|]. by exists post.
Qed.

(** White space around a line does not change its stripped form. *)
Lemma strip_spaces (pre s post : pystr) :
  Forall (fun c => isspace c = true) pre ->
  Forall (fun c => isspace c = true) post ->
  strip (pre ++ s ++ post) = strip s.
Proof.
  intros Hpre Hpost. unfold strip. rewrite lstrip_spaces by done.
  destruct (lstrip_app_spaces s post Hpost) as (post' & -> & Hpost').
  by apply rstrip_spaces.
Qed.

(** [parse] gives the same result, message or exception, whatever white
    space is put before and after the line. *)
Theorem parse_ignores_surrounding_space (pre line post : pystr) :
  Forall (fun c => isspace c = true) pre ->
  Forall (fun c => isspace c = true) post ->
  parse (pre ++ line ++ post) = parse line.
Proof. intros Hpre Hpost. unfold parse. by rewrite strip_spaces. Qed.

Lemma contains_suffix (sep a b : pystr) :
  contains sep (a ++ b) = false -> contains sep b = false.
Proof.
  induction a as [|c a IH]; [done|].
  simpl. intros [_ H]%orb_false_iff. by apply IH.
Qed.

Lemma words_no_space (s : pystr) :
  Forall (fun c => isspace c = false) (words s).1 /\
  Forall (Forall (fun c => isspace c = false)) (words s).2.
Proof.
  induction s as [|c s [IHw IHws]]; simpl; [by split|].
  destruct (words s) as [w ws]. destruct (isspace c) eqn:Hc; simpl in *.
  - split; [constructor|]. destruct w; simpl; [done|by constructor].
  - split; [by constructor|done].
Qed.

Lemma split_ws_no_space (s : pystr) :
  Forall (Forall (fun c => isspace c = false)) (split_ws s).
Proof.
  unfold split_ws. destruct (words_no_space s) as [Hw Hws].
  destruct (words s) as [[|c w] ws]; simpl in *; [done|by constructor].
Qed.

(** On a line that has no space-colon pair once stripped, the parameters of
    the message are words: none is empty, none contains white space. *)
Theorem parse_words_only (line : pystr) (m : Message) :
  contains (py " :") (strip line) = false ->
  parse line = Ok m ->
  Forall (fun p => p <> [] /\ Forall (fun c => isspace c = false) p)
    (params m).
Proof.
  intros Hno. unfold parse.
  destruct (parse_prefix (strip line)) as [[pfx rest]|] eqn:Hpre; [|done].
  assert (contains (py " :") rest = false) as Hrest.
  { destruct pfx as [p|].
    - apply parse_prefix_Some in Hpre as (tok & Hline & _).
      rewrite Hline in Hno.
      replace (58 :: tok ++ 32 :: rest) with ((58 :: tok ++ [32]) ++ rest)
        in Hno by (cbn [app]; by rewrite <- app_assoc).
      by apply contains_suffix in Hno.
    - by apply parse_prefix_None in Hpre as [-> _]. }
  unfold parse_params. rewrite Hrest.
  pose proof (split_ws_nonempty rest) as Hne.
  pose proof (split_ws_no_space rest) as Hns.
  destruct (split_ws rest) as [|cmd ps]; [done|]. intros [= <-]. cbn [params].
  inversion_clear Hne as [|? ? _ Hne']. inversion_clear Hns as [|? ? _ Hns'].
  clear -Hne' Hns'. induction Hne' as [|p ps Hp _ IH]; [constructor|].
  inversion_clear Hns'. constructor; auto.
Qed.

(** A prefix token [:nick!user@host] is taken apart at the first
    exclamation mark and, after it, at the first at sign; an empty user or
    host is recorded as absent. *)
Theorem parse_prefix_full (line nick0 user0 host0 rest : pystr) :
  strip line =
    py ":" ++ nick0 ++ py "!" ++ user0 ++ py "@" ++ host0 ++ py " " ++ rest ->
  32 ∉ nick0 -> 33 ∉ nick0 -> 32 ∉ user0 -> 64 ∉ user0 -> 32 ∉ host0 ->
  exists cmd ps,
    parse line =
      Ok (mkMessage
            (Some (mkPrefix nick0 (or_None user0) (or_None host0))) cmd ps).
Proof.
  intros Hline Hn1 Hn2 Hu1 Hu2 Hh1. unfold parse.
  change (py ":" ++ nick0 ++ py "!" ++ user0 ++ py "@" ++ host0 ++
          py " " ++ rest)
    with ([58] ++ nick0 ++ [33] ++ user0 ++ [64] ++ host0 ++ 32 :: rest)
    in Hline.
  assert (strip line = (58 :: nick0 ++ 33 :: user0 ++ 64 :: host0) ++
                       32 :: rest) as Hline'.
  { rewrite Hline. cbn [app]. f_equal.
    rewrite <- app_assoc. cbn [app]. by rewrite <- app_assoc. }
  destruct (strip_after_space _ _ _ Hline') as (r & c & -> & Hc).
  rewrite Hline'. cbn [app].
  rewrite parse_prefix_colon.
  - unfold partition at 1. rewrite split_once_char by done.
    unfold partition. rewrite split_once_char by done.
    destruct (parse_params_nonempty r c Hc) as (p & ps & ->). eauto.
  - rewrite !not_elem_of_app, !not_elem_of_cons, !not_elem_of_app,
      !not_elem_of_cons. done.
Qed.

(** ** UTF-8 and [send_raw] *)

Lemma encode_cp_length (c : N) (b : pybytes) :
  encode_cp c = Some b -> (1 <= length b <= 4)%nat.
Proof.
  unfold encode_cp.
  repeat match goal with
         | |- context [if ?x then _ else _] => destruct x
         end; intros [= <-]; simpl; lia.
Qed.

Lemma encode_utf8_length (s : pystr) (b : pybytes) :
  encode_utf8 s = Some b -> (length s <= length b <= 4 * length s)%nat.
Proof.
  revert b; induction s as [|c s IH]; intros b; simpl.
  - intros [= <-]. simpl. lia.
  - destruct (encode_cp c) as [bc|] eqn:Hc; [|done].
    destruct (encode_utf8 s) as [bs|]; [|done].
    intros [= <-]. apply encode_cp_length in Hc. specialize (IH bs eq_refl).
    rewrite length_app. lia.
Qed.

Lemma encode_cp_encodable (c : N) : is_Some (encode_cp c) <-> encodable c = true.
Proof.
  unfold encode_cp, encodable.
  destruct (N.ltb_spec c 128), (N.ltb_spec c 2048), (N.leb_spec 55296 c),
    (N.leb_spec c 57343), (N.ltb_spec c 65536), (N.ltb_spec c 1114112),
    (N.ltb_spec c 55296), (N.ltb_spec 57343 c); cbn;
    (split; [intros [? ?]|intros ?]); try done; try lia; by eexists.
Qed.

Lemma encode_utf8_encodable (s : pystr) :
  is_Some (encode_utf8 s) <-> Forall (fun c => encodable c = true) s.
Proof.
  induction s as [|c s IH]; simpl.
  - split; [constructor|by eexists].
  - rewrite Forall_cons, <- IH, <- encode_cp_encodable.
    destruct (encode_cp c), (encode_utf8 s); split;
      try (intros [? ?]; done); try (intros [[? ?] [? ?]]; done);
      intros; try split; by eexists.
Qed.

Lemma encode_utf8_app (a b : pystr) :
  encode_utf8 (a ++ b) =
    match encode_utf8 a, encode_utf8 b with
    | Some x, Some y => Some (x ++ y)
    | _, _ => None
    end.
Proof.
  induction a as [|c a IH]; simpl.
  - by destruct (encode_utf8 b).
  - rewrite IH. destruct (encode_cp c), (encode_utf8 a), (encode_utf8 b);
      try done. by rewrite app_assoc.
Qed.

Lemma encode_utf8_ascii (s : pystr) :
  Forall (fun c => c < 128) s -> encode_utf8 s = Some s.
Proof.
  induction 1 as [|c s Hc _ IH]; [done|].
  simpl. rewrite IH. unfold encode_cp.
  apply N.ltb_lt in Hc. by rewrite Hc.
Qed.

(** What one call of [send_raw] does, case by case. *)
Lemma send_raw_run (data : pystr) (drained : option exn) (self : Client) :
  send_raw data drained self =
    match _writer self, _is_connected self with
    | Some w, true =>
        match encode_utf8 data with
        | Some encoded =>
            (answered drained, self,
             [EWrite w (wire encoded); EDrain w] ++
             after drained [ELog (LogSent data)])
        | None => (Raise UnicodeEncodeError, self, [])
        end
    | _, _ => (Ok tt, self, [ELog LogNotConnected])
    end.
Proof.
  unfold send_raw. rewrite bind_get.
  destruct (_writer self) as [w|], (_is_connected self); try done.
  destruct (encode_utf8 data); [|done]. by destruct drained.
Qed.

Lemma wire_length (encoded : pybytes) : (length (wire encoded) <= 502)%nat.
Proof.
  unfold wire. rewrite length_app. cbn [length CRLF].
  destruct (Nat.ltb_spec 500 (length encoded)).
  - rewrite length_firstn. lia.
  - lia.
Qed.

(** Whatever the client, the text and the outcome of the drain, [send_raw]
    calls [write] at most once, with at most 502 bytes, the last two of
    which are CR LF. *)
Theorem send_raw_line_bound (self : Client) (data : pystr)
    (drained : option exn) :
  (length (writes (the_trace (send_raw data drained self))) <= 1)%nat /\
  Forall (fun d => (length d <= 502)%nat /\
                   exists payload, d = payload ++ CRLF)
    (writes (the_trace (send_raw data drained self))).
Proof.
  assert (writes (the_trace (send_raw data drained self)) = [] \/
          exists encoded,
            writes (the_trace (send_raw data drained self)) = [wire encoded])
    as [-> | [encoded ->]].
  { rewrite send_raw_run.
    destruct (_writer self) as [w|], (_is_connected self); try by left.
    destruct (encode_utf8 data) as [encoded|]; [|by left].
    right. exists encoded. by destruct drained. }
  { cbn. auto. }
  split; [cbn; lia|]. constructor; [|constructor].
  split; [apply wire_length|]. unfold wire. eauto.
Qed.

Lemma encode_utf8_unencodable (data : pystr) :
  Exists (fun c => encodable c = false) data -> encode_utf8 data = None.
Proof.
  intros Hbad. destruct (encode_utf8 data) as [encoded|] eqn:He; [|done].
  assert (is_Some (encode_utf8 data)) as Hsome by eauto.
  apply encode_utf8_encodable in Hsome.
  apply Exists_exists in Hbad as (c & Hin & Hcbad).
  rewrite Forall_forall in Hsome. specialize (Hsome c Hin). congruence.
Qed.

(** On a connected client, a text with a code point that has no UTF-8
    encoding (a surrogate) makes [send_raw] raise UnicodeEncodeError before
    anything is written, drained or logged. *)
Theorem send_raw_unencodable (self : Client) (w : nat) (data : pystr)
    (drained : option exn) :
  _writer self = Some w -> _is_connected self = true ->
  Exists (fun c => encodable c = false) data ->
  send_raw data drained self = (Raise UnicodeEncodeError, self, []).
Proof.
  intros Hw Hc Hbad.
  by rewrite send_raw_run, Hw, Hc, (encode_utf8_unencodable data Hbad).
Qed.

(** On a connected client, a text of at most 125 code points that has an
    encoding is written whole: no truncation can happen. ASCII text of at
    most 500 characters is written as it is. *)
Theorem send_raw_short_text (self : Client) (w : nat) (data : pystr)
    (drained : option exn) :
  _writer self = Some w -> _is_connected self = true ->
  Forall (fun c => encodable c = true) data ->
  exists encoded,
    encode_utf8 data = Some encoded /\
    ((length data <= 125)%nat ->
     writes (the_trace (send_raw data drained self)) = [encoded ++ CRLF]) /\
    (Forall (fun c => c < 128) data -> (length data <= 500)%nat ->
     writes (the_trace (send_raw data drained self)) = [data ++ CRLF]).
Proof.
  intros Hw Hc Henc. apply encode_utf8_encodable in Henc as [encoded He].
  exists encoded. split; [done|].
  assert (writes (the_trace (send_raw data drained self)) = [wire encoded])
    as -> by (rewrite send_raw_run, Hw, Hc, He; by destruct drained).
  unfold wire. split.
  - intros Hlen. apply encode_utf8_length in He.
    destruct (Nat.ltb_spec 500 (length encoded)); [lia|done].
  - intros Hascii Hlen. rewrite (encode_utf8_ascii data Hascii) in He.
    injection He as <-.
    destruct (Nat.ltb_spec 500 (length data)); [lia|done].
Qed.

(** ** Splitting into lines and [send_privmsg] *)

Lemma str_join_cons (sep x : pystr) (l : list pystr) :
  l <> [] -> str_join sep (x :: l) = x ++ sep ++ str_join sep l.
Proof. by destruct l. Qed.

Lemma split_at_most_nonempty (n : nat) (sep s : pystr) :
  split_at_most n sep s <> [].
Proof. destruct n; simpl; [done|]. by destruct (split_once sep s) as [[? ?]|]. Qed.

(** Cutting at a character: the pieces joined by it give the text back, no
    piece contains it, there is one piece more than occurrences, and the
    pieces are made of characters of the text. *)
Lemma split_at_most_char (x : N) (n : nat) (s : pystr) :
  (length s <= n)%nat ->
  str_join [x] (split_at_most n [x] s) = s /\
  Forall (fun piece => x ∉ piece) (split_at_most n [x] s) /\
  length (split_at_most n [x] s) = S (count_occ N.eq_dec s x) /\
  forall P : N -> Prop, Forall P s -> Forall (Forall P) (split_at_most n [x] s).
Proof.
  revert s; induction n as [|n IH]; intros s Hlen.
  - destruct s; [|simpl in Hlen; lia]. simpl.
    repeat split; repeat constructor. apply not_elem_of_nil.
  - cbn [split_at_most].
    destruct (split_once [x] s) as [[a b]|] eqn:Hsplit.
    + apply split_once_char_inv in Hsplit as [-> Ha].
      rewrite length_app in Hlen. simpl in Hlen.
      destruct (IH b) as (Hjoin & Hpieces & Hcount & Hall); [lia|].
      rewrite str_join_cons by apply split_at_most_nonempty.
      rewrite Hjoin. split; [done|]. split; [by constructor|]. split.
      * cbn [length]. rewrite Hcount, count_occ_app. cbn [count_occ].
        destruct (N.eq_dec x x) as [_|]; [|done].
        rewrite (proj1 (count_occ_not_In N.eq_dec a x)); [done|].
        by rewrite <- list_elem_of_In.
      * intros P [Hpa Hpb]%Forall_app. inversion_clear Hpb.
        constructor; auto.
    + apply split_once_char_None_inv in Hsplit.
      split; [done|]. split; [by constructor|]. split.
      * cbn [length]. rewrite (proj1 (count_occ_not_In N.eq_dec s x)); [done|].
        by rewrite <- list_elem_of_In.
      * intros P HP. by constructor.
Qed.

Lemma writes_app (t1 t2 : list Effect) :
  writes (t1 ++ t2) = writes t1 ++ writes t2.
Proof. apply flat_map_app. Qed.

Lemma made_all {A : Type} (l : list A) (drained : nat -> option exn) :
  (forall i, (i < length l)%nat -> drained i = None) ->
  made (imap (fun i x => (x, drained i)) l) = (l, None).
Proof.
  revert drained; induction l as [|x l IH]; intros drained Hall; [done|].
  rewrite imap_cons. cbn [made].
  rewrite (Hall 0%nat) by (cbn; lia).
  change (imap ((fun i x => (x, drained i)) ∘ S) l)
    with (imap (fun i x => (x, (drained ∘ S) i)) l).
  rewrite IH; [done|]. intros i Hi. apply Hall. cbn. lia.
Qed.

Lemma made_first {A : Type} (l : list A) (drained : nat -> option exn)
    (i : nat) (e : exn) :
  (i < length l)%nat -> drained i = Some e ->
  (forall j, (j < i)%nat -> drained j = None) ->
  made (imap (fun i x => (x, drained i)) l) = (firstn (S i) l, Some e).
Proof.
  revert drained i; induction l as [|x l IH]; intros drained i Hi He Hbefore.
  - cbn in Hi. lia.
  - rewrite imap_cons. cbn [made].
    change (imap ((fun i x => (x, drained i)) ∘ S) l)
      with (imap (fun i x => (x, (drained ∘ S) i)) l).
    destruct i as [|i].
    + rewrite He. by rewrite firstn_cons, firstn_O.
    + rewrite (Hbefore 0%nat) by lia.
      rewrite (IH (drained ∘ S) i); [done| |done|].
      * cbn in Hi. lia.
      * intros j Hj. apply Hbefore. lia.
Qed.

(** A sequence of [send_raw] calls on a connected client: the calls are
    made in order up to the first one whose drain raises, which ends the
    sequence with that exception; every call made writes its text. *)
Lemma for_each_send_connected {A : Type} (calls : list (A * option exn))
    (f : A -> pystr) (self : Client) (w : nat) :
  _writer self = Some w -> _is_connected self = true ->
  Forall (fun call => Forall (fun c => encodable c = true) (f call.1)) calls ->
  the_result (for_each calls (fun call => send_raw (f call.1) call.2) self) =
    answered (made calls).2 /\
  Forall2 (fun x d => wire_of (f x) d) (made calls).1
    (writes
       (the_trace
          (for_each calls (fun call => send_raw (f call.1) call.2) self))).
Proof.
  intros Hw Hc.
  induction 1 as [|[x answer] calls Hx _ [IHr IHw]]; [by split; constructor|].
  cbn [for_each fst snd] in *. rewrite bind_run.
  apply encode_utf8_encodable in Hx as [encoded He].
  rewrite (send_raw_run (f x) answer self), Hw, Hc, He.
  destruct answer as [e|]; cbn [answered after app made].
  - cbn. split; [done|]. constructor; [by exists encoded|constructor].
  - pose proof (keeps_client_for_each calls
                  (fun call => send_raw (f call.1) call.2)
                  (fun call => keeps_client_send_raw (f call.1) call.2) self)
      as Hk.
    destruct (for_each calls _ self) as [[r s] t].
    destruct (made calls) as [l r']. cbn in IHr, IHw, Hk |- *.
    subst. split; [done|]. constructor; [by exists encoded|done].
Qed.

(** The same sequence on a client that is not connected: an error is logged
    for every text and nothing is written. *)
Lemma for_each_send_not_connected {A : Type} (calls : list (A * option exn))
    (f : A -> pystr) (self : Client) :
  _writer self = None \/ _is_connected self = false ->
  for_each calls (fun call => send_raw (f call.1) call.2) self =
    (Ok tt, self, List.map (fun _ => ELog LogNotConnected) calls).
Proof.
  intros Hdown. induction calls as [|call calls IH]; [done|].
  cbn [for_each]. rewrite bind_run.
  assert (send_raw (f call.1) call.2 self =
            (Ok tt, self, [ELog LogNotConnected])) as ->.
  { rewrite send_raw_run. destruct Hdown as [-> | ->]; [done|].
    by destruct (_writer self). }
  by rewrite IH.
Qed.

Lemma encodable_privmsg (target line : pystr) :
  Forall (fun c => encodable c = true) target ->
  Forall (fun c => encodable c = true) line ->
  Forall (fun c => encodable c = true)
    (py "PRIVMSG " ++ target ++ py " :" ++ line).
Proof.
  intros Ht Hl. rewrite !Forall_app. repeat split; try done.
  - change (py "PRIVMSG ") with [80; 82; 73; 86; 77; 83; 71; 32].
    by repeat constructor.
  - change (py " :") with [32; 58]. by repeat constructor.
Qed.


(** On a client that is not connected, [send_privmsg] returns normally,
    writes nothing and logs one error per piece of the text. *)
Theorem send_privmsg_not_connected (self : Client) (target text : pystr)
    (drained : nat -> option exn) :
  _writer self = None \/ _is_connected self = false ->
  the_result (send_privmsg target text drained self) = Ok tt /\
  writes (the_trace (send_privmsg target text drained self)) = [] /\
  errors (the_trace (send_privmsg target text drained self)) =
    repeat LogNotConnected (S (count_occ N.eq_dec text 10)).
Proof.
  intros Hdown. unfold send_privmsg, split.
  rewrite (for_each_send_not_connected _
             (fun line => py "PRIVMSG " ++ target ++ py " :" ++ line))
    by done.
  destruct (split_at_most_char 10 (length text) text (Nat.le_refl _))
    as (_ & _ & <- & _).
  rewrite <- (length_imap (fun i line => (line, drained i))
                (split_at_most (length text) [10] text)).
  cbn [the_result the_trace fst snd]. split; [done|].
  generalize (imap (fun i line => (line, drained i))
                (split_at_most (length text) [10] text)).
  intros l. split.
  - induction l as [|x l IH]; [done|]. apply IH.
  - induction l as [|x l IH]; [done|].
    unfold errors in *. cbn [List.map flat_map level app length repeat].
    by rewrite IH.
Qed.

(** ** [quit] and [_register] *)

Lemma send_raw_connected_run (self : Client) (w : nat) (data : pystr) :
  _writer self = Some w -> _is_connected self = true ->
  Forall (fun c => encodable c = true) data ->
  exists d,
    wire_of data d /\
    forall drained,
      send_raw data drained self =
        (answered drained, self,
         [EWrite w d; EDrain w] ++ after drained [ELog (LogSent data)]).
Proof.
  intros Hw Hc [encoded He]%encode_utf8_encodable.
  exists (wire encoded). split; [by exists encoded|].
  intros drained. by rewrite send_raw_run, Hw, Hc, He.
Qed.

Lemma encodable_quit (reason : pystr) :
  Forall (fun c => encodable c = true) reason ->
  Forall (fun c => encodable c = true) (py "QUIT :" ++ reason).
Proof.
  intros Hr. apply Forall_app. split; [|done].
  change (py "QUIT :") with [81; 85; 73; 84; 32; 58]. by repeat constructor.
Qed.

(** [quit] on a connected client. *)
Lemma quit_connected_run (self : Client) (w : nat) (reason : pystr) :
  _writer self = Some w -> _is_connected self = true ->
  Forall (fun c => encodable c = true) reason ->
  exists q,
    wire_of (py "QUIT :" ++ reason) q /\
    forall drained closed0,
      quit reason drained closed0 self =
        match drained with
        | Some e => (Raise e, self, [EWrite w q; EDrain w])
        | None =>
            (answered closed0, self,
             [EWrite w q; EDrain w; ELog (LogSent (py "QUIT :" ++ reason));
              EClose w; EWaitClosed w])
        end.
Proof.
  intros Hw Hc Hreason.
  destruct (send_raw_connected_run self w _ Hw Hc (encodable_quit _ Hreason))
    as (q & Hq & Hsend).
  exists q. split; [done|]. intros drained closed0.
  unfold quit. rewrite bind_run, Hsend.
  destruct drained as [e|]; [done|].
  cbn [answered after app]. rewrite bind_get, Hw. by destruct closed0.
Qed.

(** [quit] sends its QUIT line like any [send_raw] and then closes whatever
    writer the client has, connected or not; without a writer it closes
    nothing. On a client that is not connected the line is not sent, an
    error is logged and the writer attribute, if set, is closed once more.
    On a connected client the line is written; if its drain raises, that
    exception leaves [quit] and the writer is not closed; otherwise the
    writer is closed and [quit] returns or raises as [wait_closed] does. *)
Theorem quit_sends_then_closes (self : Client) (reason : pystr)
    (drained closed0 : option exn) :
  (_is_connected self = true -> Forall (fun c => encodable c = true) reason) ->
  (_writer self = None \/ _is_connected self = false ->
   quit reason drained closed0 self =
     (answered (close_outcome (_writer self) closed0), self,
      ELog LogNotConnected :: closing (_writer self))) /\
  (forall w,
     _writer self = Some w -> _is_connected self = true ->
     exists q,
       wire_of (py "QUIT :" ++ reason) q /\
       quit reason drained closed0 self =
         match drained with
         | Some e => (Raise e, self, [EWrite w q; EDrain w])
         | None =>
             (answered closed0, self,
              [EWrite w q; EDrain w; ELog (LogSent (py "QUIT :" ++ reason));
               EClose w; EWaitClosed w])
         end).
Proof.
  intros Henc. split.
  - intros Hdown. unfold quit. rewrite bind_run.
    assert (send_raw (py "QUIT :" ++ reason) drained self =
              (Ok tt, self, [ELog LogNotConnected])) as ->.
    { rewrite send_raw_run. destruct Hdown as [-> | ->]; [done|].
      by destruct (_writer self). }
    rewrite bind_get.
    destruct (_writer self) as [w|]; [|done]. by destruct closed0.
  - intros w Hw Hc.
    destruct (quit_connected_run self w reason Hw Hc (Henc Hc))
      as (q & Hq & Hquit).
    exists q. split; [done|]. apply Hquit.
Qed.

(** On a connected client a reason without an encoding makes [quit] raise
    before anything is sent, and the writer is not closed. *)
Theorem quit_unencodable (self : Client) (w : nat) (reason : pystr)
    (drained closed0 : option exn) :
  _writer self = Some w -> _is_connected self = true ->
  Exists (fun c => encodable c = false) reason ->
  quit reason drained closed0 self = (Raise UnicodeEncodeError, self, []).
Proof.
  intros Hw Hc Hbad. unfold quit. rewrite bind_run.
  rewrite send_raw_run, Hw, Hc, encode_utf8_unencodable; [done|].
  apply Exists_app. by right.
Qed.


(** [_register] is a sequence of [send_raw] calls. *)
Lemma register_as_calls (self : Client) (drained : nat -> option exn) :
  _register drained self =
    for_each
      (match password self with
       | Some (c :: p) => [(py "PASS " ++ c :: p, drained 0%nat)]
       | _ => []
       end ++
       [(py "NICK " ++ nickname self, drained 1%nat);
        (py "USER " ++ username self ++ py " 0 * :" ++ realname self,
         drained 2%nat)])
      (fun call => send_raw call.1 call.2) self.
Proof.
  unfold _register. rewrite bind_get.
  destruct (password self) as [[|c p]|]; cbn [app for_each fst snd].
  - rewrite bind_ret_l. apply bind_ext. intros [] s.
    symmetry. apply bind_ret_r.
  - apply bind_ext. intros [] s. apply bind_ext. intros [] s'.
    symmetry. apply bind_ret_r.
  - rewrite bind_ret_l. apply bind_ext. intros [] s.
    symmetry. apply bind_ret_r.
Qed.

Lemma encodable_registration (self : Client) (drained : nat -> option exn) :
  Forall (fun c => encodable c = true) (nickname self) ->
  Forall (fun c => encodable c = true) (username self) ->
  Forall (fun c => encodable c = true) (realname self) ->
  Forall (fun c => encodable c = true) (default [] (password self)) ->
  Forall (fun call : pystr * option exn =>
            Forall (fun c => encodable c = true) call.1)
    (match password self with
     | Some (c :: p) => [(py "PASS " ++ c :: p, drained 0%nat)]
     | _ => []
     end ++
     [(py "NICK " ++ nickname self, drained 1%nat);
      (py "USER " ++ username self ++ py " 0 * :" ++ realname self,
       drained 2%nat)]).
Proof.
  intros Hnick Huser Hreal Hpass.
  assert (Forall (fun c => encodable c = true) (py "NICK " ++ nickname self))
    as Hn.
  { apply Forall_app. split; [|done].
    change (py "NICK ") with [78; 73; 67; 75; 32]. by repeat constructor. }
  assert (Forall (fun c => encodable c = true)
            (py "USER " ++ username self ++ py " 0 * :" ++ realname self))
    as Hu.
  { rewrite !Forall_app. repeat split; try done.
    - change (py "USER ") with [85; 83; 69; 82; 32]. by repeat constructor.
    - change (py " 0 * :") with [32; 48; 32; 42; 32; 58].
      by repeat constructor. }
  apply Forall_app. split; [|repeat (constructor; [assumption|]); constructor].
  destruct (password self) as [[|c p]|]; [constructor| |constructor].
  constructor; [|constructor]. apply Forall_app. split; [|done].
  change (py "PASS ") with [80; 65; 83; 83; 32]. by repeat constructor.
Qed.

Lemma registration_all_return (self : Client) (drained : nat -> option exn) :
  (forall i, drained i = None) ->
  Forall (fun call : pystr * option exn => call.2 = None)
    (match password self with
     | Some (c :: p) => [(py "PASS " ++ c :: p, drained 0%nat)]
     | _ => []
     end ++
     [(py "NICK " ++ nickname self, drained 1%nat);
      (py "USER " ++ username self ++ py " 0 * :" ++ realname self,
       drained 2%nat)]).
Proof.
  intros Hnone. apply Forall_app; split;
    [destruct (password self) as [[|c p]|]|];
    repeat (constructor; [apply Hnone|]); constructor.
Qed.

Lemma made_all_return {A : Type} (calls : list (A * option exn)) :
  Forall (fun call => call.2 = None) calls ->
  made calls = (List.map fst calls, None).
Proof.
  induction 1 as [|[x a] l Ha _ IH]; [done|].
  cbn in Ha. subst a. cbn [made List.map fst]. by rewrite IH.
Qed.

(** On a connected client whose identity fields have an encoding,
    [_register] writes, in this order, a PASS line if the password is a
    non-empty string, a NICK line and a USER line, and nothing else, until a
    drain raises: that exception leaves the method and the lines that
    follow are not written. When every drain returns, the method returns
    normally after writing all of them. *)
Theorem register_lines (self : Client) (w : nat)
    (drained : nat -> option exn) :
  _writer self = Some w -> _is_connected self = true ->
  Forall (fun c => encodable c = true) (nickname self) ->
  Forall (fun c => encodable c = true) (username self) ->
  Forall (fun c => encodable c = true) (realname self) ->
  Forall (fun c => encodable c = true) (default [] (password self)) ->
  let calls :=
    match password self with
    | Some (c :: p) => [(py "PASS " ++ c :: p, drained 0%nat)]
    | _ => []
    end ++
    [(py "NICK " ++ nickname self, drained 1%nat);
     (py "USER " ++ username self ++ py " 0 * :" ++ realname self,
      drained 2%nat)] in
  the_result (_register drained self) = answered (made calls).2 /\
  Forall2 wire_of (made calls).1 (writes (the_trace (_register drained self)))
  /\
  ((forall i, drained i = None) ->
   the_result (_register drained self) = Ok tt /\
   Forall2 wire_of (List.map fst calls)
     (writes (the_trace (_register drained self)))).
Proof.
  intros Hw Hc Hnick Huser Hreal Hpass. cbv zeta.
  rewrite register_as_calls.
  destruct (for_each_send_connected _ (fun x => x) self w Hw Hc
              (encodable_registration self drained Hnick Huser Hreal Hpass))
    as [Hres Hwrites].
  split; [done|]. split; [done|]. intros Hnone.
  by rewrite (made_all_return _ (registration_all_return self drained Hnone))
    in Hres, Hwrites.
Qed.

(** ** Dispatch and the read loop *)

Lemma trace_bind_Forall {A B : Type} (P : Effect -> Prop) (m : M A)
    (k : A -> M B) (self : Client) :
  Forall P (the_trace (m self)) ->
  (forall a s t, m self = (Ok a, s, t) -> Forall P (the_trace (k a s))) ->
  Forall P (the_trace ((m ≫= k) self)).
Proof.
  intros Hm Hk. rewrite bind_run.
  destruct (m self) as [[[a|e] s] t]; [|done].
  specialize (Hk a s t eq_refl). destruct (k a s) as [[r s'] t'].
  cbn in *. by apply Forall_app.
Qed.

Lemma for_each_create_task_trace (P : Effect -> Prop) (l : list Handler)
    (m : Message) (self : Client) :
  (forall h, P (ESpawn h m)) -> (forall id, P (ECall id m)) ->
  Forall P (the_trace (for_each l (fun h => create_task h m) self)).
Proof.
  intros Hspawn Hcall. revert self. induction l as [|h l IH]; intros self.
  - constructor.
  - cbn [for_each]. apply trace_bind_Forall; [|intros; apply IH].
    destruct h as [|id [|]]; cbn; repeat constructor; auto.
Qed.

Lemma dispatch_trace_Forall (P : Effect -> Prop) (m : Message)
    (self : Client) :
  (forall h, P (ESpawn h m)) -> (forall id, P (ECall id m)) ->
  Forall P (the_trace (_dispatch m self)).
Proof.
  intros Hspawn Hcall. rewrite dispatch_run.
  apply trace_bind_Forall; [|intros]; by apply for_each_create_task_trace.
Qed.

Lemma handle_line_trace_Forall (P : Effect -> Prop) (raw : pybytes)
    (self : Client) :
  (forall r, P (ELog r)) ->
  (forall h m, parse (strip (decode_utf8 raw)) = Ok m -> P (ESpawn h m)) ->
  (forall id m, P (ECall id m)) ->
  Forall P (the_trace (handle_line raw self)).
Proof.
  intros Hlog Hspawn Hcall. unfold handle_line.
  apply trace_bind_Forall; [by repeat constructor|]. intros _ s _ _.
  unfold try_except.
  assert (Forall P
            (the_trace
               ((lift (parse (strip (decode_utf8 raw))) ≫= _dispatch) s)))
    as Hbody.
  { rewrite bind_run. unfold lift at 1.
    destruct (parse (strip (decode_utf8 raw))) as [m|e] eqn:Hparse; [|done].
    pose proof (dispatch_trace_Forall P m s (fun h => Hspawn h m eq_refl)
                  (fun id => Hcall id m)) as Hd.
    destruct (_dispatch m s) as [[r s'] t]. cbn in *. done. }
  destruct ((lift _ ≫= _dispatch) s) as [[[[]|e] s'] t]; cbn in *; [done|].
  apply Forall_app. split; [done|]. by repeat constructor.
Qed.

Lemma writes_local (t : list Effect) :
  Forall (fun e => is_local e = true) t -> writes t = [].
Proof.
  induction 1 as [|e t He _ IH]; [done|].
  unfold writes in *. cbn [flat_map]. rewrite IH. by destruct e.
Qed.

(** What the trace of the read loop is made of. *)
Lemma read_loop_trace (reads0 : list read_result) (self : Client) :
  Forall
    (fun e =>
       is_local e = true /\
       forall h m, e = ESpawn h m ->
         exists raw, In (Line raw) reads0 /\
                     parse (strip (decode_utf8 raw)) = Ok m)
    (the_trace (_read_loop reads0 self)).
Proof.
  induction reads0 as [|rd reads0 IH]; cbn [_read_loop];
    rewrite bind_get; destruct (_ && _).
  - constructor.
  - constructor.
  - destruct rd as [[|b raw]|e].
    + repeat constructor. done.
    + apply trace_bind_Forall.
      * apply handle_line_trace_Forall.
        -- intros r. split; [done|]. intros h m [=].
        -- intros h m Hparse. split; [done|]. intros h' m' [= <- <-].
           exists (b :: raw). split; [by left|done].
        -- intros id m. split; [done|]. intros h' m' [=].
      * intros u s t Hrun.
        pose proof (keeps_client_handle_line (b :: raw) self) as Hk.
        rewrite Hrun in Hk. cbn in Hk. clear Hrun. subst s.
        eapply Forall_impl; [exact IH|].
        intros e [Hl Hs]. split; [done|]. intros h m He.
        destruct (Hs h m He) as (raw' & Hin & Hp).
        exists raw'. split; [by right|done].
    + constructor.
  - constructor.
Qed.

Lemma read_loop_writes (reads0 : list read_result) (self : Client) :
  writes (the_trace (_read_loop reads0 self)) = [].
Proof.
  apply writes_local. eapply Forall_impl; [apply read_loop_trace|].
  by intros e [? _].
Qed.

(** The read loop itself only logs, calls plain callbacks and creates
    tasks: it never writes to, drains or closes a stream and never sleeps.
    Every task it creates gets the message parsed from one of the lines
    read. *)
Theorem read_loop_only_schedules (reads0 : list read_result) (self : Client) :
  Forall (fun e => is_local e = true) (the_trace (_read_loop reads0 self)) /\
  writes (the_trace (_read_loop reads0 self)) = [] /\
  forall h m,
    In (ESpawn h m) (the_trace (_read_loop reads0 self)) ->
    exists raw,
      In (Line raw) reads0 /\ parse (strip (decode_utf8 raw)) = Ok m.
Proof.
  pose proof (read_loop_trace reads0 self) as HQ.
  split; [|split].
  - eapply Forall_impl; [exact HQ|]. by intros e [? _].
  - apply read_loop_writes.
  - intros h m Hin. rewrite Forall_forall in HQ.
    apply list_elem_of_In in Hin. destruct (HQ _ Hin) as [_ Hs]. by apply (Hs h m).
Qed.

(** A newly constructed client has one handler, the built-in one for PING:
    dispatching a PING message creates its task, dispatching any other
    message does nothing. *)
Theorem new_client_dispatch (host0 : pystr) (port0 : N) (nickname0 : pystr)
    (username0 realname0 password0 : option pystr) (ssl0 : bool)
    (m : Message) :
  _dispatch m (init host0 port0 nickname0 username0 realname0 password0 ssl0)
  = (Ok tt, init host0 port0 nickname0 username0 realname0 password0 ssl0,
     if bool_decide (command m = py "PING")
     then [ESpawn HandlePing m] else []).
Proof.
  rewrite dispatch_run, bind_run, !handlers_init, !registered_cons.
  replace (upper (py "PING")) with (py "PING") by done.
  replace (bool_decide (py "PING" = py "*")) with false by done.
  unfold registered. cbn [List.filter List.map app].
  destruct (decide (command m = py "PING")) as [->|Hne].
  - by rewrite !bool_decide_eq_true_2.
  - rewrite (bool_decide_eq_false_2 (py "PING" = command m)) by congruence.
    by rewrite bool_decide_eq_false_2.
Qed.

(** Registrations only append: after any sequence of them the list under
    every key is the list that was there followed by the new handlers for
    that key, in registration order, and the connection attributes are
    untouched. *)
Theorem registry_append_only (regs : list (pystr * Handler)) (self : Client)
    (key : pystr) :
  default [] (_handlers (register_all regs self) !! key) =
    default [] (_handlers self !! key) ++ registered regs key /\
  _writer (register_all regs self) = _writer self /\
  _reader (register_all regs self) = _reader self /\
  _is_connected (register_all regs self) = _is_connected self.
Proof.
  split; [apply handlers_register_all|].
  revert self; induction regs as [|[k h] regs IH]; intros self; [done|].
  change (register_all ((k, h) :: regs) self)
    with (register_all regs (on k h self)).
  by destruct (IH (on k h self)) as (-> & -> & ->).
Qed.

(** ** The passes of [connect] *)

Lemma ret_run {A : Type} (a : A) (self : Client) :
  @mret M _ A a self = (Ok a, self, []).
Proof. done. Qed.

Lemma teardown_run (delay : N) (closed0 : option exn) (self : Client) :
  teardown delay closed0 self =
    (answered (close_outcome (_writer self) closed0),
     set_is_connected false self,
     closing (_writer self) ++
     after (close_outcome (_writer self) closed0)
       [ELog (LogDisconnected delay); ESleep delay]).
Proof.
  unfold teardown. rewrite bind_run.
  change (modify (set_is_connected false) self)
    with (Ok tt, set_is_connected false self, @nil Effect).
  cbv beta iota. rewrite bind_get.
  change (_writer (set_is_connected false self)) with (_writer self).
  destruct (_writer self) as [w|]; [|done]. by destruct closed0.
Qed.

Lemma on_exception_run (e : exn) (self : Client) :
  on_exception e self =
    (Ok Returned, self,
     [ELog (match e with
            | OSError => LogConnectionFailed e
            | _ => LogUnexpected e
            end)]).
Proof. by destruct e. Qed.

Lemma session_open_fails (a : attempt) (self : Client) (e : exn) :
  opened a = Raise e ->
  session a self =
    (Raise e, self, [ELog (LogConnecting (server self) (port self))]).
Proof.
  intros He. unfold session. rewrite bind_get, bind_run.
  unfold emit at 1. cbv beta iota. rewrite bind_run. unfold lift at 1.
  by rewrite He.
Qed.

(** The end of a pass whose [try] block is over: the [finally] block runs,
    and the pass returns after the log record and the sleep, or is left by
    the exception of [wait_closed] before them. *)
Lemma finally_run (delay : N) (a : attempt) (s : Client) :
  (teardown delay (closed a) ;; mret Returned) s =
    (match close_outcome (_writer s) (closed a) with
     | None => Ok Returned
     | Some e => Raise e
     end,
     set_is_connected false s,
     closing (_writer s) ++
     after (close_outcome (_writer s) (closed a))
       [ELog (LogDisconnected delay); ESleep delay]).
Proof.
  rewrite bind_run, teardown_run.
  destruct (close_outcome (_writer s) (closed a)); [done|].
  cbn. by rewrite app_nil_r.
Qed.

(** A pass of the loop, from what its [try] block does: it stays in the
    read loop, or the [finally] block runs, after the [except] clause if the
    [try] block raised. *)
Lemma connect_once_pass (delay : N) (a : attempt) (self : Client) :
  connect_once delay a self =
    match session a self with
    | (Ok Suspended, s, t) => (Ok Suspended, s, t)
    | (Ok Returned, s, t) =>
        (match close_outcome (_writer s) (closed a) with
         | None => Ok Returned
         | Some e => Raise e
         end,
         set_is_connected false s,
         t ++ closing (_writer s) ++
         after (close_outcome (_writer s) (closed a))
           [ELog (LogDisconnected delay); ESleep delay])
    | (Raise e, s, t) =>
        (match close_outcome (_writer s) (closed a) with
         | None => Ok Returned
         | Some e' => Raise e'
         end,
         set_is_connected false s,
         (t ++ [ELog (match e with
                      | OSError => LogConnectionFailed e
                      | _ => LogUnexpected e
                      end)]) ++
         closing (_writer s) ++
         after (close_outcome (_writer s) (closed a))
           [ELog (LogDisconnected delay); ESleep delay])
    end.
Proof.
  unfold connect_once. rewrite bind_run. unfold try_except.
  destruct (session a self) as [[[[]|e] s] t].
  - by rewrite finally_run.
  - cbn. by rewrite app_nil_r.
  - rewrite on_exception_run. cbv beta iota. by rewrite finally_run.
Qed.

(** A pass in which the connection cannot be opened: the failure is logged
    (as a connection failure for OSError, as unexpected otherwise) and the
    writer left by an earlier connection, if any, is closed once more. When
    there is no such writer, or its [wait_closed] returns, the pass ends
    with the client not connected after logging and sleeping for the delay;
    when [wait_closed] raises, its exception leaves the pass, and with it
    [connect], before the log record and the sleep. Nothing is written. *)
Theorem connect_once_open_failure (delay : N) (a : attempt) (self : Client)
    (e : exn) :
  opened a = Raise e ->
  let waited := close_outcome (_writer self) (closed a) in
  connect_once delay a self =
    (match waited with
     | None => Ok Returned
     | Some e' => Raise e'
     end,
     set_is_connected false self,
     [ELog (LogConnecting (server self) (port self));
      ELog (match e with
            | OSError => LogConnectionFailed e
            | _ => LogUnexpected e
            end)] ++
     closing (_writer self) ++
     after waited [ELog (LogDisconnected delay); ESleep delay]).
Proof.
  intros He. cbv zeta.
  by rewrite connect_once_pass, (session_open_fails a self e He).
Qed.

(** Either a pass stays in the read loop, with the client connected on the
    streams just opened, or its [finally] block runs: the flag is cleared
    and the writer attribute, if set, is closed. The pass then returns after
    the log record and the sleep of the delay, unless [wait_closed] raised:
    that exception leaves the pass before them. No exception of the [try]
    block leaves the pass. *)
Theorem connect_once_outcome (delay : N) (a : attempt) (self : Client) :
  (exists r w,
     opened a = Ok (r, w) /\
     the_result (connect_once delay a self) = Ok Suspended /\
     the_client (connect_once delay a self) =
       set_is_connected true (set_streams (Some r) (Some w) self)) \/
  (exists t,
     let s := the_client (session a self) in
     let waited := close_outcome (_writer s) (closed a) in
     the_trace (session a self) ++
       match the_result (session a self) with
       | Raise e => [ELog (match e with
                           | OSError => LogConnectionFailed e
                           | _ => LogUnexpected e
                           end)]
       | Ok _ => []
       end = t /\
     connect_once delay a self =
       (match waited with
        | None => Ok Returned
        | Some e => Raise e
        end,
        set_is_connected false s,
        t ++ closing (_writer s) ++
        after waited [ELog (LogDisconnected delay); ESleep delay])).
Proof.
  rewrite connect_once_pass.
  pose proof (session_client a self) as Hs.
  pose proof (session_fails a self) as Hf.
  destruct (session a self) as [[[[]|e] s] t];
    cbn [the_client the_result the_trace fst snd] in Hs, Hf |- *.
  - right. exists t. split; [by rewrite app_nil_r|done].
  - left. destruct (opened a) as [[r w]|e]; [|by specialize (Hf e eq_refl)].
    exists r, w. by subst.
  - right. eexists. split; [done|]. done.
Qed.

(** How a pass ends, result only. *)
Lemma connect_once_result (delay : N) (a : attempt) (self : Client) :
  the_result (connect_once delay a self) = Ok Suspended \/
  (the_result (connect_once delay a self) = Ok Returned /\
   close_outcome (_writer (the_client (session a self))) (closed a) = None) \/
  (exists e,
     the_result (connect_once delay a self) = Raise e /\
     closed a = Some e /\
     is_Some (_writer (the_client (session a self)))).
Proof.
  rewrite connect_once_pass.
  destruct (session a self) as [[[[]|e0] s] t];
    cbn [the_result the_client fst snd]; [|by left|];
    (destruct (_writer s) as [w|]; cbn;
     [destruct (closed a) as [e|]; [|by right; left];
      right; right; exists e; by eauto
     |by right; left]).
Qed.

(** [connect] never returns: a run over any sequence of passes is left
    suspended, or is ended by an exception, and the only exception that
    leaves [connect] is one raised by [wait_closed] in the [finally] block
    of a pass. When no [wait_closed] raises, the run is left suspended
    whatever else the network does. *)
Theorem connect_never_returns (delay : N) (attempts : list attempt)
    (self : Client) :
  the_result (connect delay attempts self) <> Ok Returned /\
  (forall e,
     the_result (connect delay attempts self) = Raise e ->
     exists a, In a attempts /\ closed a = Some e) /\
  (Forall (fun a => closed a = None) attempts ->
   the_result (connect delay attempts self) = Ok Suspended).
Proof.
  revert self; induction attempts as [|a attempts IH]; intros self.
  - split; [done|]. split; [done|]. done.
  - cbn [connect]. rewrite bind_run.
    pose proof (connect_once_result delay a self) as Hone.
    destruct (connect_once delay a self) as [[r s] t].
    cbn [the_result fst] in Hone.
    destruct Hone as [->|[[-> Hclosed]|(e & -> & He & Hw)]].
    + cbn. split; [done|]. split; [done|]. done.
    + cbv beta iota. destruct (IH s) as (IH1 & IH2 & IH3).
      destruct (connect delay attempts s) as [[r0 s0] t0].
      cbn [the_result fst] in *. split; [done|]. split.
      * intros e He. destruct (IH2 e He) as (a' & Hin & Ha').
        exists a'. split; [by right|done].
      * intros Hall. apply IH3. by inversion Hall.
    + cbn [the_result fst]. split; [done|]. split.
      * intros e' [= <-]. exists a. split; [by left|done].
      * intros Hall. inversion Hall; congruence.
Qed.

Lemma sleeps_app (t1 t2 : list Effect) :
  sleeps (t1 ++ t2) = sleeps t1 ++ sleeps t2.
Proof. apply flat_map_app. Qed.

(** While the connection cannot be opened, [connect] writes nothing and
    sleeps for the delay, the same every time, once per attempt that its
    [finally] block completes. When the client has no writer from an
    earlier connection, or every [wait_closed] on it returns, that is once
    per attempt, and the run is left suspended. When the [wait_closed] of
    the first attempt raises, [connect] is left by that exception without
    having slept at all. *)
Theorem connect_retries (delay : N) (attempts : list attempt)
    (self : Client) :
  Forall (fun a => exists e, opened a = Raise e) attempts ->
  writes (the_trace (connect delay attempts self)) = [] /\
  (exists n,
     (n <= length attempts)%nat /\
     sleeps (the_trace (connect delay attempts self)) = repeat delay n) /\
  (_writer self = None \/ Forall (fun a => closed a = None) attempts ->
   the_result (connect delay attempts self) = Ok Suspended /\
   sleeps (the_trace (connect delay attempts self)) =
     repeat delay (length attempts)) /\
  (forall a rest e,
     attempts = a :: rest -> is_Some (_writer self) -> closed a = Some e ->
     the_result (connect delay attempts self) = Raise e /\
     sleeps (the_trace (connect delay attempts self)) = []).
Proof.
  intros Hfail. revert self.
  induction Hfail as [|a attempts [e He] _ IH]; intros self.
  - split; [done|]. split; [by exists 0%nat|]. split; [done|].
    intros a rest e [=].
  - cbn [connect]. rewrite bind_run.
    assert (connect_once delay a self =
              (match close_outcome (_writer self) (closed a) with
               | None => Ok Returned
               | Some e' => Raise e'
               end,
               set_is_connected false self,
               [ELog (LogConnecting (server self) (port self));
                ELog (match e with
                      | OSError => LogConnectionFailed e
                      | _ => LogUnexpected e
                      end)] ++
               closing (_writer self) ++
               after (close_outcome (_writer self) (closed a))
                 [ELog (LogDisconnected delay); ESleep delay])) as ->
      by (by rewrite connect_once_pass, (session_open_fails a self e He)).
    destruct (IH (set_is_connected false self)) as (IHw & (n & Hn & IHs) & IHall & _).
    change (_writer (set_is_connected false self)) with (_writer self)
      in IHall.
    destruct (close_outcome (_writer self) (closed a)) as [e'|] eqn:Hout.
    + cbn [the_trace the_result fst snd after].
      assert (exists w, _writer self = Some w /\ closed a = Some e')
        as (w & Hw & Hcl).
      { unfold close_outcome in Hout. destruct (_writer self) as [w|]; [|done].
        by exists w. }
      rewrite Hw. split; [by destruct e|]. split.
      { exists 0%nat. split; [lia|]. by destruct e. }
      split.
      { intros [Hnone|Hall]; [congruence|].
        inversion Hall; congruence. }
      intros a0 rest e0 [= <- <-] _ He0. split; [congruence|].
      by destruct e.
    + cbv beta iota.
      destruct (connect delay attempts _) as [[r0 s0] t0].
      cbn [the_trace the_result fst snd after] in *.
      rewrite !sleeps_app, !writes_app, IHw.
      assert (sleeps [ELog (LogConnecting (server self) (port self));
                      ELog (match e with
                            | OSError => LogConnectionFailed e
                            | _ => LogUnexpected e
                            end)] ++
              sleeps (closing (_writer self)) ++
              sleeps [ELog (LogDisconnected delay); ESleep delay] = [delay])
        as -> by (by destruct (_writer self), e).
      split; [by destruct (_writer self), e|]. split.
      { exists (S n). split; [cbn; lia|]. by rewrite IHs. }
      split.
      { intros Hok. destruct IHall as [-> ->].
        { destruct Hok as [Hnone|Hall]; [by left|right; by inversion Hall]. }
        done. }
      intros a0 rest e0 [= <- <-] [w Hw] He0.
      rewrite Hw, He0 in Hout. done.
Qed.

Lemma same_identity_refl (c : Client) : same_identity c c.
Proof. by repeat split. Qed.

Lemma connect_once_identity (delay : N) (a : attempt) (self : Client) :
  same_identity (the_client (connect_once delay a self)) self.
Proof.
  destruct (connect_once_client delay a self) as [(r & w & _ & ->)| ->].
  - by repeat split.
  - rewrite session_client. destruct (opened a) as [[r w]|e]; by repeat split.
Qed.

(** Reconnecting never loses a handler: after any run of [connect] the
    client has the registry and the configuration it started with. *)
Theorem connect_keeps_identity (delay : N) (attempts : list attempt)
    (self : Client) :
  same_identity (the_client (connect delay attempts self)) self.
Proof.
  revert self; induction attempts as [|a attempts IH]; intros self.
  - apply same_identity_refl.
  - cbn [connect]. rewrite bind_run.
    pose proof (connect_once_identity delay a self) as Hone.
    destruct (connect_once delay a self) as [[[[]|e] s] t];
      cbn [the_client fst snd] in Hone |- *; try done.
    specialize (IH s). destruct (connect delay attempts s) as [[r0 s0] t0].
    cbn [the_client fst snd] in IH |- *.
    unfold same_identity in *. intuition congruence.
Qed.

Lemma writes_bind {A B : Type} (m : M A) (k : A -> M B) (self : Client) :
  writes (the_trace ((m ≫= k) self)) =
    writes (the_trace (m self)) ++
    match m self with
    | (Ok a, s, _) => writes (the_trace (k a s))
    | _ => []
    end.
Proof.
  rewrite bind_run. destruct (m self) as [[[a|e] s] t]; cbn [the_trace snd].
  - destruct (k a s) as [[r s'] t']. cbn [the_trace snd]. apply writes_app.
  - by rewrite app_nil_r.
Qed.

(** The [except] and [finally] blocks of a pass write nothing. *)
Lemma connect_once_writes (delay : N) (a : attempt) (self : Client) :
  writes (the_trace (connect_once delay a self)) =
    writes (the_trace (session a self)).
Proof.
  assert (forall s, writes (the_trace ((teardown delay (closed a) ;;
                                        mret Returned) s)) = []) as Hfin.
  { intros s. rewrite finally_run. cbn [the_trace snd].
    rewrite writes_app.
    by destruct (_writer s), (closed a). }
  unfold connect_once. rewrite writes_bind. unfold try_except.
  destruct (session a self) as [[[[]|e] s] t]; cbn [the_trace snd].
  - by rewrite Hfin, app_nil_r.
  - by rewrite app_nil_r.
  - rewrite on_exception_run, Hfin.
    cbn [the_trace snd]. rewrite !writes_app.
    destruct e; by rewrite !app_nil_r.
Qed.

Lemma session_writes (a : attempt) (self : Client) (r w : nat) :
  opened a = Ok (r, w) ->
  writes (the_trace (session a self)) =
    writes
      (the_trace
         (_register (drains a)
            (set_is_connected true
               (set_streams (Some r) (Some w) self)))).
Proof.
  intros Hop. unfold session. rewrite bind_get.
  rewrite writes_bind. unfold emit at 1 2. cbn [the_trace snd writes flat_map app].
  rewrite writes_bind. unfold lift at 1 2. rewrite Hop.
  cbn [the_trace snd writes flat_map app fst].
  rewrite writes_bind.
  change (modify (set_streams (Some r) (Some w)) self)
    with (Ok tt, set_streams (Some r) (Some w) self, @nil Effect).
  cbn [the_trace snd writes flat_map app].
  rewrite writes_bind.
  change (modify (set_is_connected true) (set_streams (Some r) (Some w) self))
    with (Ok tt, set_is_connected true (set_streams (Some r) (Some w) self),
          @nil Effect).
  cbn [the_trace snd writes flat_map app].
  rewrite writes_bind. unfold emit at 1 2.
  cbn [the_trace snd writes flat_map app].
  rewrite writes_bind.
  pose proof (keeps_client_register (drains a)
                (set_is_connected true
                   (set_streams (Some r) (Some w) self))) as Hk.
  destruct (_register _ _) as [[[[]|e] s] t]; cbn [the_trace the_client fst snd]
    in Hk |- *; [|by rewrite app_nil_r].
  by rewrite read_loop_writes, app_nil_r.
Qed.

(** What a pass that opens a connection writes is what its registration
    writes, whatever is read afterwards and however the pass ends: the
    registration lines (PASS if there is a non-empty password, NICK, USER),
    in order, up to the first one whose drain raises, and all of them when
    every drain returns. All other output comes from tasks. *)
Theorem connect_once_registers (delay : N) (a : attempt) (self : Client)
    (r w : nat) :
  opened a = Ok (r, w) ->
  Forall (fun c => encodable c = true) (nickname self) ->
  Forall (fun c => encodable c = true) (username self) ->
  Forall (fun c => encodable c = true) (realname self) ->
  Forall (fun c => encodable c = true) (default [] (password self)) ->
  let calls :=
    match password self with
    | Some (c :: p) => [(py "PASS " ++ c :: p, drains a 0%nat)]
    | _ => []
    end ++
    [(py "NICK " ++ nickname self, drains a 1%nat);
     (py "USER " ++ username self ++ py " 0 * :" ++ realname self,
      drains a 2%nat)] in
  Forall2 wire_of (made calls).1
    (writes (the_trace (connect_once delay a self))) /\
  ((forall i, drains a i = None) ->
   Forall2 wire_of (List.map fst calls)
     (writes (the_trace (connect_once delay a self)))).
Proof.
  intros Hop Hnick Huser Hreal Hpass. cbv zeta.
  rewrite connect_once_writes, (session_writes a self r w Hop).
  rewrite register_as_calls.
  pose proof (for_each_send_connected _ (fun x => x)
                (set_is_connected true (set_streams (Some r) (Some w) self)) w
                eq_refl eq_refl
                (encodable_registration
                   (set_is_connected true
                      (set_streams (Some r) (Some w) self))
                   (drains a) Hnick Huser Hreal Hpass)) as [_ Hwrites].
  split; [exact Hwrites|]. intros Hnone.
  by rewrite (made_all_return _
                (registration_all_return
                   (set_is_connected true
                      (set_streams (Some r) (Some w) self))
                   (drains a) Hnone)) in Hwrites.
Qed.

(** ** The keep-alive exchange *)

Lemma rstrip_snoc_nonspace (t : pystr) (c : N) :
  isspace c = false -> rstrip (t ++ [c]) = t ++ [c].
Proof.
  intros Hc. unfold rstrip. rewrite rev_app_distr. cbn [rev app lstrip].
  rewrite Hc. cbn [rev]. by rewrite rev_involutive.
Qed.

(** The token of a PING comes back unchanged: a line [PING :token] whose
    token does not end with white space parses to the command PING with the
    token as its only parameter, and on a connected client the built-in
    handler answers a PING message with one write, of the line [PONG :]
    followed by the first parameter. When the drain that follows returns,
    the handler logs the answer and returns; when it raises, that exception
    leaves the handler and nothing is logged. *)
Theorem ping_pong_token (self : Client) (w : nat) (token : pystr)
    (pfx : option Prefix) (more : list pystr) (drained : option exn) :
  _writer self = Some w -> _is_connected self = true ->
  Forall (fun c => encodable c = true) token ->
  token = [] \/ (exists t c, token = t ++ [c] /\ isspace c = false) ->
  parse (py "PING :" ++ token) = Ok (mkMessage None (py "PING") [token]) /\
  exists d,
    wire_of (py "PONG :" ++ token) d /\
    _handle_ping (mkMessage pfx (py "PING") (token :: more)) drained self =
      (answered drained, self,
       [EWrite w d; EDrain w] ++
       after drained
         [ELog (LogSent (py "PONG :" ++ token)); ELog (LogPong token)]).
Proof.
  intros Hw Hc Henc Htoken. split.
  - unfold parse.
    assert (strip (py "PING :" ++ token) = py "PING :" ++ token) as ->.
    { unfold strip. change (lstrip (py "PING :" ++ token))
        with (py "PING :" ++ token).
      destruct Htoken as [->|(t & c & -> & Hc')]; [done|].
      rewrite app_assoc. by apply rstrip_snoc_nonspace. }
    change (parse_prefix (py "PING :" ++ token))
      with (@Ok (option Prefix * list N) (None, py "PING :" ++ token)).
    cbv beta iota.
    change (py "PING :" ++ token) with (py "PING" ++ [32; 58] ++ token).
    by rewrite parse_params_trailing.
  - assert (Forall (fun c => encodable c = true) (py "PONG :" ++ token))
      as Hline.
    { apply Forall_app. split; [|done].
      change (py "PONG :") with [80; 79; 78; 71; 32; 58].
      by repeat constructor. }
    destruct (send_raw_connected_run self w _ Hw Hc Hline)
      as (d & Hd & Hsend).
    exists d. split; [done|].
    unfold _handle_ping. cbn [params]. rewrite bind_run, Hsend.
    by destruct drained.
Qed.

End Airc.

(** * Examples and counterexamples *)

(** The lines of the specification's test list. *)
Example parse_privmsg :
  parse caseless (py ":nick!user@host PRIVMSG #chan :hello world") =
    Ok (mkMessage
          (Some (mkPrefix (py "nick") (Some (py "user")) (Some (py "host"))))
          (py "PRIVMSG") [py "#chan"; py "hello world"]).
Proof. reflexivity. Qed.

Example parse_ping :
  parse caseless (py "PING :token123") =
    Ok (mkMessage None (py "PING") [py "token123"]).
Proof. reflexivity. Qed.

Example parse_join :
  parse caseless (py "JOIN #chan") = Ok (mkMessage None (py "JOIN") [py "#chan"]).
Proof. reflexivity. Qed.

Example parse_empty : parse caseless [] = Raise IndexError.
Proof. reflexivity. Qed.

Example parse_prefix_only : parse caseless (py ":abc") = Raise ValueError.
Proof. reflexivity. Qed.


(** ** The parser *)

Lemma parse_trailing_verbatim_witness :
  parse_prefix (strip (py ":nick!user@host PRIVMSG #chan :hello  world :x")) =
    Ok (Some (mkPrefix (py "nick") (Some (py "user")) (Some (py "host"))),
        py "PRIVMSG #chan :hello  world :x") /\
  py "PRIVMSG #chan :hello  world :x" =
    py "PRIVMSG #chan" ++ py " :" ++ py "hello  world :x" /\
  contains (py " :") (py "PRIVMSG #chan") = false /\
  split_ws (py "PRIVMSG #chan") = py "PRIVMSG" :: [py "#chan"] /\
  parse caseless (py ":nick!user@host PRIVMSG #chan :hello  world :x") =
    Ok (mkMessage
          (Some (mkPrefix (py "nick") (Some (py "user")) (Some (py "host"))))
          (upper caseless (py "PRIVMSG"))
          ([py "#chan"] ++ [py "hello  world :x"])).
Proof.
  repeat (split; [reflexivity|]).
  apply (parse_trailing_verbatim caseless
           (py ":nick!user@host PRIVMSG #chan :hello  world :x")
           (py "PRIVMSG #chan :hello  world :x")
           (py "PRIVMSG #chan") (py "hello  world :x")
           (py "PRIVMSG") [py "#chan"]); reflexivity.
Defined.

(** C1 as stated fails: on [:n  :a b] the text after the space-colon pair is
    not returned as a last parameter (it becomes the command, upper-cased,
    and the parameter list is empty). *)
Lemma parse_trailing_taken_as_command :
  ~ (forall (unicode_upper : N -> list N) (line rest before after : list N)
       (pfx : option Prefix),
       parse_prefix (strip line) = Ok (pfx, rest) ->
       rest = before ++ py " :" ++ after ->
       contains (py " :") before = false ->
       exists cmd ps,
         parse unicode_upper line = Ok (mkMessage pfx cmd (ps ++ [after]))).
Proof.
  intros H.
  destruct (H caseless (py ":n  :a b") (py " :a b") [] (py "a b")
              (Some (mkPrefix (py "n") None None))
              eq_refl eq_refl eq_refl) as (cmd & ps & Hparse).
  vm_compute in Hparse. injection Hparse as _ Hps.
  by destruct ps.
Qed.

Lemma caseless_nonempty (c : N) : 128 <= c -> caseless c <> [].
Proof. done. Defined.

Lemma caseless_idem (c : N) :
  128 <= c -> upper caseless (caseless c) = caseless c.
Proof.
  intros Hc. unfold upper, caseless at 2. cbn [flat_map]. unfold upper_cp.
  apply N.ltb_ge in Hc. rewrite Hc. reflexivity.
Defined.

Lemma parse_command_upper_nonempty_witness :
  (forall c, 128 <= c -> caseless c <> []) /\
  (forall c, 128 <= c -> upper caseless (caseless c) = caseless c) /\
  parse caseless (py "ping :token123") =
    Ok (mkMessage None (py "PING") [py "token123"]) /\
  upper caseless (py "PING") = py "PING" /\
  (py "PING" = [] <->
   exists tok ws,
     strip (py "ping :token123") = py ":" ++ tok ++ py " " ++ ws ++ py " :" /\
     (32 ∉ tok) /\ Forall (fun c => isspace c = true) ws).
Proof.
  split; [exact caseless_nonempty|]. split; [exact caseless_idem|].
  split; [reflexivity|].
  apply (parse_command_upper_nonempty caseless caseless_nonempty
           caseless_idem (py "ping :token123")
           (mkMessage None (py "PING") [py "token123"])).
  reflexivity.
Defined.

(** C2 as stated fails: [:n  :] parses to a message with the empty
    command. *)
Lemma parse_empty_command :
  ~ (forall (unicode_upper : N -> list N),
       (forall c, 128 <= c -> unicode_upper c <> []) ->
       (forall c, 128 <= c ->
          upper unicode_upper (unicode_upper c) = unicode_upper c) ->
       forall line m,
         parse unicode_upper line = Ok m ->
         command m <> [] /\ upper unicode_upper (command m) = command m).
Proof.
  intros H.
  destruct (H caseless caseless_nonempty caseless_idem (py ":n  :")
              (mkMessage (Some (mkPrefix (py "n") None None)) [] [])
              eq_refl) as [Hne _].
  by apply Hne.
Qed.

Lemma parse_prefix_nick_witness :
  parse caseless (py ":nick!user@host PRIVMSG #chan :hi") =
    Ok (mkMessage
          (Some (mkPrefix (py "nick") (Some (py "user")) (Some (py "host"))))
          (py "PRIVMSG") [py "#chan"; py "hi"]) /\
  Some (mkPrefix (py "nick") (Some (py "user")) (Some (py "host"))) =
    Some (mkPrefix (py "nick") (Some (py "user")) (Some (py "host"))) /\
  (py "nick" = [] <->
   startswith (py ": ") (strip (py ":nick!user@host PRIVMSG #chan :hi")) = true
   \/
   startswith (py ":!") (strip (py ":nick!user@host PRIVMSG #chan :hi")) = true).
Proof.
  split; [reflexivity|]. split; [reflexivity|].
  apply (parse_prefix_nick caseless (py ":nick!user@host PRIVMSG #chan :hi")
           (mkMessage
              (Some (mkPrefix (py "nick") (Some (py "user"))
                       (Some (py "host"))))
              (py "PRIVMSG") [py "#chan"; py "hi"])
           (mkPrefix (py "nick") (Some (py "user")) (Some (py "host"))));
    reflexivity.
Defined.

(** C9 as stated fails: [: CMD] parses to a message whose prefix has the
    empty nickname. *)
Lemma parse_empty_nick :
  ~ (forall (unicode_upper : N -> list N) (line : list N) (m : Message)
       (p : Prefix),
       parse unicode_upper line = Ok m -> prefix m = Some p -> nick p <> []).
Proof.
  intros H.
  by apply (H caseless (py ": CMD")
              (mkMessage (Some (mkPrefix [] None None)) (py "CMD") [])
              (mkPrefix [] None None) eq_refl eq_refl).
Qed.

Lemma parse_prefix_without_bang_witness :
  strip (py ":nick@host CMD") =
    py ":" ++ py "nick" ++ py "@" ++ py "host" ++ py " " ++ py "CMD" /\
  (32 ∉ py "nick") /\ (33 ∉ py "nick") /\
  (32 ∉ py "host") /\ (33 ∉ py "host") /\
  exists cmd ps,
    parse caseless (py ":nick@host CMD") =
      Ok (mkMessage
            (Some (mkPrefix (py "nick" ++ py "@" ++ py "host") None None))
            cmd ps).
Proof.
  assert (forall x (l : list N), bool_decide (x ∉ l) = true -> x ∉ l)
    as Hdec by (intros x l; apply bool_decide_eq_true_1).
  split; [reflexivity|].
  repeat (split; [apply Hdec; reflexivity|]).
  apply (parse_prefix_without_bang caseless (py ":nick@host CMD")
           (py "nick") (py "host") (py "CMD"));
    [reflexivity|apply Hdec; reflexivity..].
Defined.

(** ** Sending *)

Lemma send_raw_not_connected_witness :
  (_writer (init caseless (py "irc.example.org") 6697 (py "bot") None None
              None true) = None \/
   _is_connected (init caseless (py "irc.example.org") 6697 (py "bot") None
                    None None true) = false) /\
  the_trace
    (send_raw (py "JOIN #chan") None
       (init caseless (py "irc.example.org") 6697 (py "bot") None None None
          true)) = [ELog LogNotConnected] /\
  the_result
    (send_raw (py "JOIN #chan") None
       (init caseless (py "irc.example.org") 6697 (py "bot") None None None
          true)) = Ok tt.
Proof.
  split; [left; reflexivity|].
  destruct (send_raw_not_connected
              (init caseless (py "irc.example.org") 6697 (py "bot") None None
                 None true)
              (py "JOIN #chan") None (or_introl eq_refl))
    as (Hres & _ & _ & Htrace & _).
  split; [exact Htrace|exact Hres].
Defined.

Lemma send_raw_truncates_witness :
  _writer
    (set_is_connected true
       (set_streams (Some 0%nat) (Some 1%nat)
          (init caseless (py "irc.example.org") 6697 (py "bot") None None
             None true))) = Some 1%nat /\
  _is_connected
    (set_is_connected true
       (set_streams (Some 0%nat) (Some 1%nat)
          (init caseless (py "irc.example.org") 6697 (py "bot") None None
             None true))) = true /\
  encode_utf8 (repeat 97 501%nat) = Some (repeat 97 501%nat) /\
  exists payload,
    writes
      (the_trace
         (send_raw (repeat 97 501%nat) None
            (set_is_connected true
               (set_streams (Some 0%nat) (Some 1%nat)
                  (init caseless (py "irc.example.org") 6697 (py "bot") None
                     None None true))))) = [payload ++ CRLF] /\
    ((500 < length (repeat 97 501%nat))%nat ->
     payload = firstn 500 (repeat 97 501%nat)) /\
    ((length (repeat 97 501%nat) <= 500)%nat ->
     payload = repeat 97 501%nat).
Proof.
  split; [reflexivity|]. split; [reflexivity|].
  split; [vm_compute; reflexivity|].
  apply (send_raw_truncates _ 1%nat (repeat 97 501%nat) (repeat 97 501%nat)
           None);
    [reflexivity|reflexivity|vm_compute; reflexivity].
Defined.

(** ** The registry and dispatch *)

Lemma dispatch_schedules_registered_witness :
  _handlers
    (register_all caseless
       [(py "privmsg", Callback 0 true); (py "PRIVMSG", Callback 1 true);
        (py "*", Callback 2 true)]
       (init caseless (py "irc.example.org") 6697 (py "bot") None None None
          true)) =
  _handlers
    (register_all caseless
       [(py "privmsg", Callback 0 true); (py "PRIVMSG", Callback 1 true);
        (py "*", Callback 2 true)]
       (init caseless (py "irc.example.org") 6697 (py "bot") None None None
          true)) /\
  Forall (fun kh : list N * Handler => is_coroutine kh.2 = true)
    [(py "privmsg", Callback 0 true); (py "PRIVMSG", Callback 1 true);
     (py "*", Callback 2 true)] /\
  the_trace
    (_dispatch (mkMessage None (py "PRIVMSG") [py "#chan"; py "hi"])
       (register_all caseless
          [(py "privmsg", Callback 0 true); (py "PRIVMSG", Callback 1 true);
           (py "*", Callback 2 true)]
          (init caseless (py "irc.example.org") 6697 (py "bot") None None
             None true))) =
  List.map
    (fun h => ESpawn h (mkMessage None (py "PRIVMSG") [py "#chan"; py "hi"]))
    [Callback 0 true; Callback 1 true; Callback 2 true].
Proof.
  split; [reflexivity|].
  assert (Forall (fun kh : list N * Handler => is_coroutine kh.2 = true)
            [(py "privmsg", Callback 0 true); (py "PRIVMSG", Callback 1 true);
             (py "*", Callback 2 true)]) as Hco
    by (repeat constructor).
  split; [exact Hco|].
  destruct (dispatch_schedules_registered caseless
              (py "irc.example.org") 6697 (py "bot") None None None true
              [(py "privmsg", Callback 0 true);
               (py "PRIVMSG", Callback 1 true); (py "*", Callback 2 true)]
              _ eq_refl
              (mkMessage None (py "PRIVMSG") [py "#chan"; py "hi"]) Hco)
    as (_ & Htrace & _).
  rewrite Htrace. vm_compute. reflexivity.
Defined.

(** C6 as stated fails: for a message whose command is the wildcard key
    itself, a handler registered once under that key gets two tasks. *)
Lemma wildcard_command_scheduled_twice :
  ~ (forall (unicode_upper : N -> list N) (host0 : list N) (port0 : N)
       (nickname0 : list N) (username0 realname0 password0 : option (list N))
       (ssl0 : bool) (regs : list (list N * Handler)) (self : Client)
       (m : Message) (h : Handler),
       _handlers self =
         _handlers
           (register_all unicode_upper regs
              (init unicode_upper host0 port0 nickname0 username0 realname0
                 password0 ssl0)) ->
       Forall (fun kh => is_coroutine kh.2 = true) regs ->
       count_occ Handler_eq_dec
         (List.map snd ((py "PING", HandlePing) :: regs)) h = 1%nat ->
       In h (registered unicode_upper ((py "PING", HandlePing) :: regs)
               (command m)) \/
       In h (registered unicode_upper ((py "PING", HandlePing) :: regs)
               (py "*")) ->
       count_occ Handler_eq_dec (spawned (the_trace (_dispatch m self))) h =
         1%nat).
Proof.
  intros H.
  assert (Forall (fun kh : list N * Handler => is_coroutine kh.2 = true)
            [(py "*", Callback 0 true)]) as Hco
    by (repeat constructor).
  specialize (H caseless (py "irc.example.org") 6697 (py "bot") None None None
                true [(py "*", Callback 0 true)] _
                (mkMessage None (py "*") []) (Callback 0 true)
                eq_refl Hco eq_refl (or_intror (or_introl eq_refl))).
  rewrite (dispatch_trace caseless (py "irc.example.org") 6697 (py "bot")
             None None None true [(py "*", Callback 0 true)] _ eq_refl
             (mkMessage None (py "*") []) Hco) in H.
  vm_compute in H. discriminate H.
Qed.



(** ** The read loop *)

(** Two lines, the second of which makes [parse] raise ValueError: both are
    gone through and the loop waits for the next read. *)
Lemma read_loop_survives_bad_lines_witness :
  _is_connected
    (set_is_connected true
       (set_streams (Some 0%nat) (Some 1%nat)
          (init caseless (py "irc.example.org") 6697 (py "bot") None None
             None true))) = true /\
  is_Some
    (_reader
       (set_is_connected true
          (set_streams (Some 0%nat) (Some 1%nat)
             (init caseless (py "irc.example.org") 6697 (py "bot") None None
                None true)))) /\
  Forall (fun raw : list N => raw <> []) [py "PING :abc"; py ":x"] /\
  _read_loop caseless decode_ascii
    (List.map Line [py "PING :abc"; py ":x"] ++ [Line []])
    (set_is_connected true
       (set_streams (Some 0%nat) (Some 1%nat)
          (init caseless (py "irc.example.org") 6697 (py "bot") None None
             None true))) =
  (Ok Returned,
   set_is_connected true
     (set_streams (Some 0%nat) (Some 1%nat)
        (init caseless (py "irc.example.org") 6697 (py "bot") None None None
           true)),
   [ELog (LogReceived (py "PING :abc"));
    ESpawn HandlePing (mkMessage None (py "PING") [py "abc"]);
    ELog (LogReceived (py ":x"));
    ELog (LogLineFailed (py ":x") ValueError);
    ELog LogEmptyData]).
Proof.
  split; [reflexivity|]. split; [by eexists|].
  assert (Forall (fun raw : list N => raw <> []) [py "PING :abc"; py ":x"])
    as Hlines by (repeat constructor; discriminate).
  split; [exact Hlines|].
  destruct (read_loop_survives_bad_lines caseless decode_ascii
              (set_is_connected true
                 (set_streams (Some 0%nat) (Some 1%nat)
                    (init caseless (py "irc.example.org") 6697 (py "bot")
                       None None None true)))
              [py "PING :abc"; py ":x"] []
              eq_refl (ex_intro _ 0%nat eq_refl) Hlines)
    as (_ & _ & _ & Hrun & _).
  rewrite Hrun. vm_compute. reflexivity.
Defined.

(** ** The connection cycle *)

Lemma connected_has_writer_witness :
  lifecycle caseless decode_ascii
    (the_client
       (connect_once caseless decode_ascii 10
          (mkAttempt (Ok (0%nat, 1%nat)) all_return [Line (py "PING :abc")]
             None)
          (sample_new caseless))) /\
  (_is_connected
     (the_client
        (connect_once caseless decode_ascii 10
           (mkAttempt (Ok (0%nat, 1%nat)) all_return [Line (py "PING :abc")]
              None)
           (sample_new caseless))) = true ->
   is_Some
     (_writer
        (the_client
           (connect_once caseless decode_ascii 10
              (mkAttempt (Ok (0%nat, 1%nat)) all_return
                 [Line (py "PING :abc")] None)
              (sample_new caseless)))) /\
   is_Some
     (_reader
        (the_client
           (connect_once caseless decode_ascii 10
              (mkAttempt (Ok (0%nat, 1%nat)) all_return
                 [Line (py "PING :abc")] None)
              (sample_new caseless))))).
Proof.
  assert (lifecycle caseless decode_ascii
            (the_client
               (connect_once caseless decode_ascii 10
                  (mkAttempt (Ok (0%nat, 1%nat)) all_return
                     [Line (py "PING :abc")] None)
                  (sample_new caseless)))) as Hlife
    by (apply lifecycle_connect, lifecycle_init).
  split; [exact Hlife|].
  exact (proj1 (connected_has_writer caseless decode_ascii _ Hlife)).
Defined.

(** C3 as stated fails: after a pass of the connection loop that ends with a
    closed connection, the client is not connected and still has its
    writer. *)
Lemma writer_kept_after_teardown :
  ~ (forall (unicode_upper : N -> list N) (decode_utf8 : list N -> list N)
       (self : Client),
       lifecycle unicode_upper decode_utf8 self ->
       (_writer self <> None <-> _is_connected self = true)).
Proof.
  intros H.
  destruct (H caseless decode_ascii
              (the_client
                 (connect_once caseless decode_ascii 10
                    (mkAttempt (Ok (0%nat, 1%nat)) all_return [Line []] None)
                    (init caseless (py "irc.example.org") 6697 (py "bot")
                       None None None true))))
    as [Hconn _].
  - apply lifecycle_connect, lifecycle_init.
  - assert (false = true) as Habs; [|discriminate Habs].
    apply Hconn. vm_compute. discriminate.
Qed.

(** * Examples for the further properties *)

Lemma parse_ignores_surrounding_space_witness :
  Forall (fun c => isspace c = true) (py "  ") /\
  Forall (fun c => isspace c = true) [13; 10] /\
  parse caseless (py "  " ++ py "PING :abc" ++ [13; 10]) =
    parse caseless (py "PING :abc").
Proof.
  assert (Forall (fun c => isspace c = true) (py "  ")) as Hpre
    by (repeat constructor).
  assert (Forall (fun c => isspace c = true) [13; 10]) as Hpost
    by (repeat constructor).
  split; [exact Hpre|]. split; [exact Hpost|].
  exact (parse_ignores_surrounding_space caseless _ (py "PING :abc") _
           Hpre Hpost).
Defined.

Lemma parse_words_only_witness :
  contains (py " :") (strip (py ":n!u@h MODE #chan +o bot")) = false /\
  parse caseless (py ":n!u@h MODE #chan +o bot") =
    Ok (mkMessage (Some (mkPrefix (py "n") (Some (py "u")) (Some (py "h"))))
          (py "MODE") [py "#chan"; py "+o"; py "bot"]) /\
  Forall (fun p => p <> [] /\ Forall (fun c => isspace c = false) p)
    [py "#chan"; py "+o"; py "bot"].
Proof.
  split; [reflexivity|]. split; [reflexivity|].
  exact (parse_words_only caseless (py ":n!u@h MODE #chan +o bot")
           (mkMessage
              (Some (mkPrefix (py "n") (Some (py "u")) (Some (py "h"))))
              (py "MODE") [py "#chan"; py "+o"; py "bot"])
           eq_refl eq_refl).
Defined.

Lemma parse_prefix_full_witness :
  strip (py ":nick!user@host PRIVMSG #c :hi") =
    py ":" ++ py "nick" ++ py "!" ++ py "user" ++ py "@" ++ py "host" ++
    py " " ++ py "PRIVMSG #c :hi" /\
  (32 ∉ py "nick") /\ (33 ∉ py "nick") /\ (32 ∉ py "user") /\
  (64 ∉ py "user") /\ (32 ∉ py "host") /\
  exists cmd ps,
    parse caseless (py ":nick!user@host PRIVMSG #c :hi") =
      Ok (mkMessage
            (Some (mkPrefix (py "nick") (or_None (py "user"))
                     (or_None (py "host")))) cmd ps).
Proof.
  assert (forall x (l : list N), bool_decide (x ∉ l) = true -> x ∉ l)
    as Hdec by (intros x l; apply bool_decide_eq_true_1).
  split; [reflexivity|].
  repeat (split; [apply Hdec; reflexivity|]).
  apply (parse_prefix_full caseless (py ":nick!user@host PRIVMSG #c :hi")
           (py "nick") (py "user") (py "host") (py "PRIVMSG #c :hi"));
    [reflexivity|apply Hdec; reflexivity..].
Defined.

Lemma send_raw_unencodable_witness :
  _writer (sample_client caseless) = Some 1%nat /\
  _is_connected (sample_client caseless) = true /\
  Exists (fun c => encodable c = false) [55296] /\
  send_raw [55296] None (sample_client caseless) =
    (Raise UnicodeEncodeError, sample_client caseless, []).
Proof.
  assert (Exists (fun c => encodable c = false) [55296]) as Hbad
    by (apply Exists_cons_hd; reflexivity).
  split; [reflexivity|]. split; [reflexivity|]. split; [exact Hbad|].
  exact (send_raw_unencodable (sample_client caseless) 1%nat [55296] None
           eq_refl eq_refl Hbad).
Defined.

Lemma send_raw_short_text_witness :
  _writer (sample_client caseless) = Some 1%nat /\
  _is_connected (sample_client caseless) = true /\
  Forall (fun c => encodable c = true) (py "NICK bot") /\
  exists encoded,
    encode_utf8 (py "NICK bot") = Some encoded /\
    ((length (py "NICK bot") <= 125)%nat ->
     writes
       (the_trace
          (send_raw (py "NICK bot") (Some OSError) (sample_client caseless))) =
       [encoded ++ CRLF]) /\
    (Forall (fun c => c < 128) (py "NICK bot") ->
     (length (py "NICK bot") <= 500)%nat ->
     writes
       (the_trace
          (send_raw (py "NICK bot") (Some OSError) (sample_client caseless))) =
       [py "NICK bot" ++ CRLF]).
Proof.
  assert (Forall (fun c => encodable c = true) (py "NICK bot")) as Henc
    by (repeat constructor).
  split; [reflexivity|]. split; [reflexivity|]. split; [exact Henc|].
  exact (send_raw_short_text (sample_client caseless) 1%nat (py "NICK bot")
           (Some OSError) eq_refl eq_refl Henc).
Defined.


Lemma send_privmsg_not_connected_witness :
  (_writer (sample_new caseless) = None \/
   _is_connected (sample_new caseless) = false) /\
  writes
    (the_trace
       (send_privmsg (py "#chan") (py "a" ++ [10] ++ py "b") all_return
          (sample_new caseless))) = [].
Proof.
  split; [left; reflexivity|].
  exact (proj1 (proj2
           (send_privmsg_not_connected (sample_new caseless) (py "#chan")
              (py "a" ++ [10] ++ py "b") all_return (or_introl eq_refl)))).
Defined.

(** A drain that raises: the QUIT line is written and the writer is not
    closed. *)
Lemma quit_sends_then_closes_witness :
  (_is_connected (sample_client caseless) = true ->
   Forall (fun c => encodable c = true) (py "bye")) /\
  _writer (sample_client caseless) = Some 1%nat /\
  _is_connected (sample_client caseless) = true /\
  exists q,
    wire_of (py "QUIT :" ++ py "bye") q /\
    quit (py "bye") (Some OSError) None (sample_client caseless) =
      (Raise OSError, sample_client caseless, [EWrite 1 q; EDrain 1]).
Proof.
  assert (_is_connected (sample_client caseless) = true ->
          Forall (fun c => encodable c = true) (py "bye")) as Henc
    by (intros _; repeat constructor).
  split; [exact Henc|]. split; [reflexivity|]. split; [reflexivity|].
  exact (proj2 (quit_sends_then_closes (sample_client caseless) (py "bye")
                  (Some OSError) None Henc) 1%nat eq_refl eq_refl).
Defined.

Lemma quit_unencodable_witness :
  _writer (sample_client caseless) = Some 1%nat /\
  _is_connected (sample_client caseless) = true /\
  Exists (fun c => encodable c = false) [55296] /\
  quit [55296] None None (sample_client caseless) =
    (Raise UnicodeEncodeError, sample_client caseless, []).
Proof.
  assert (Exists (fun c => encodable c = false) [55296]) as Hbad
    by (apply Exists_cons_hd; reflexivity).
  split; [reflexivity|]. split; [reflexivity|]. split; [exact Hbad|].
  exact (quit_unencodable (sample_client caseless) 1%nat [55296] None None
           eq_refl eq_refl Hbad).
Defined.


Lemma register_lines_witness :
  _writer (sample_client caseless) = Some 1%nat /\
  _is_connected (sample_client caseless) = true /\
  Forall (fun c => encodable c = true) (nickname (sample_client caseless)) /\
  Forall (fun c => encodable c = true) (username (sample_client caseless)) /\
  Forall (fun c => encodable c = true) (realname (sample_client caseless)) /\
  Forall (fun c => encodable c = true)
    (default [] (password (sample_client caseless))) /\
  (forall i, all_return i = None) /\
  the_result (_register all_return (sample_client caseless)) = Ok tt.
Proof.
  assert (Forall (fun c => encodable c = true) (py "bot")) as Hbot
    by (repeat constructor).
  split; [reflexivity|]. split; [reflexivity|].
  split; [exact Hbot|]. split; [exact Hbot|]. split; [exact Hbot|].
  split; [constructor|]. split; [reflexivity|].
  exact (proj1 (proj2 (proj2
           (register_lines (sample_client caseless) 1%nat all_return
              eq_refl eq_refl Hbot Hbot Hbot (List.Forall_nil _)))
           (fun _ => eq_refl))).
Defined.

(** The connection cannot be opened and the [wait_closed] of the writer left
    by the last connection raises: the exception leaves the pass, which
    neither logs the disconnection nor sleeps. *)
Lemma connect_once_open_failure_witness :
  opened (mkAttempt (Raise OSError) all_return [] (Some OSError)) =
    Raise OSError /\
  connect_once caseless decode_ascii 10
    (mkAttempt (Raise OSError) all_return [] (Some OSError))
    (sample_stale caseless) =
  (Raise OSError, set_is_connected false (sample_stale caseless),
   [ELog (LogConnecting (server (sample_stale caseless))
            (port (sample_stale caseless)));
    ELog (LogConnectionFailed OSError); EClose 1; EWaitClosed 1]).
Proof.
  split; [reflexivity|].
  exact (connect_once_open_failure caseless decode_ascii 10
           (mkAttempt (Raise OSError) all_return [] (Some OSError))
           (sample_stale caseless) OSError eq_refl).
Defined.

Lemma connect_retries_witness :
  Forall (fun a => exists e, opened a = Raise e)
    [mkAttempt (Raise OSError) all_return [] None;
     mkAttempt (Raise OtherError) all_return [] (Some OSError)] /\
  (_writer (sample_new caseless) = None \/
   Forall (fun a => closed a = None)
     [mkAttempt (Raise OSError) all_return [] None;
      mkAttempt (Raise OtherError) all_return [] (Some OSError)]) /\
  writes
    (the_trace
       (connect caseless decode_ascii 10
          [mkAttempt (Raise OSError) all_return [] None;
           mkAttempt (Raise OtherError) all_return [] (Some OSError)]
          (sample_new caseless))) = [] /\
  the_result
    (connect caseless decode_ascii 10
       [mkAttempt (Raise OSError) all_return [] None;
        mkAttempt (Raise OtherError) all_return [] (Some OSError)]
       (sample_new caseless)) = Ok Suspended /\
  sleeps
    (the_trace
       (connect caseless decode_ascii 10
          [mkAttempt (Raise OSError) all_return [] None;
           mkAttempt (Raise OtherError) all_return [] (Some OSError)]
          (sample_new caseless))) = repeat 10 2.
Proof.
  assert (Forall (fun a => exists e, opened a = Raise e)
            [mkAttempt (Raise OSError) all_return [] None;
             mkAttempt (Raise OtherError) all_return [] (Some OSError)])
    as Hfail by (repeat constructor; eexists; reflexivity).
  split; [exact Hfail|]. split; [left; reflexivity|].
  destruct (connect_retries caseless decode_ascii 10 _ (sample_new caseless)
              Hfail) as (Hwrites & _ & Hall & _).
  split; [exact Hwrites|]. exact (Hall (or_introl eq_refl)).
Defined.

Lemma connect_once_registers_witness :
  opened (mkAttempt (Ok (0%nat, 1%nat)) second_fails [Line []] None) =
    Ok (0%nat, 1%nat) /\
  Forall (fun c => encodable c = true) (nickname (sample_new caseless)) /\
  Forall (fun c => encodable c = true) (username (sample_new caseless)) /\
  Forall (fun c => encodable c = true) (realname (sample_new caseless)) /\
  Forall (fun c => encodable c = true)
    (default [] (password (sample_new caseless))) /\
  Forall2 wire_of [py "NICK " ++ nickname (sample_new caseless)]
    (writes
       (the_trace
          (connect_once caseless decode_ascii 10
             (mkAttempt (Ok (0%nat, 1%nat)) second_fails [Line []] None)
             (sample_new caseless)))).
Proof.
  assert (Forall (fun c => encodable c = true) (py "bot")) as Hbot
    by (repeat constructor).
  split; [reflexivity|].
  split; [exact Hbot|]. split; [exact Hbot|]. split; [exact Hbot|].
  split; [constructor|].
  exact (proj1
           (connect_once_registers caseless decode_ascii 10
              (mkAttempt (Ok (0%nat, 1%nat)) second_fails [Line []] None)
              (sample_new caseless) 0%nat 1%nat eq_refl Hbot Hbot Hbot
              (List.Forall_nil _))).
Defined.

Lemma ping_pong_token_witness :
  _writer (sample_client caseless) = Some 1%nat /\
  _is_connected (sample_client caseless) = true /\
  Forall (fun c => encodable c = true) (py "abc") /\
  (py "abc" = [] \/
   exists t c, py "abc" = t ++ [c] /\ isspace c = false) /\
  parse caseless (py "PING :" ++ py "abc") =
    Ok (mkMessage None (py "PING") [py "abc"]) /\
  exists d,
    wire_of (py "PONG :" ++ py "abc") d /\
    _handle_ping (mkMessage None (py "PING") [py "abc"]) (Some OSError)
      (sample_client caseless) =
      (Raise OSError, sample_client caseless, [EWrite 1 d; EDrain 1]).
Proof.
  assert (Forall (fun c => encodable c = true) (py "abc")) as Henc
    by (repeat constructor).
  assert (py "abc" = [] \/
          exists t c, py "abc" = t ++ [c] /\ isspace c = false) as Htok
    by (right; exists (py "ab"), 99; split; reflexivity).
  split; [reflexivity|]. split; [reflexivity|].
  split; [exact Henc|]. split; [exact Htok|].
  exact (ping_pong_token caseless (sample_client caseless) 1%nat
           (py "abc") None [] (Some OSError) eq_refl eq_refl Henc Htok).
Defined.
